(** * Polygon simplicity by a Shamos-Hoey sweep: a shallow embedding

    The development follows [src/lib/util/sweep/ShamosHoey.ts] and the
    [SegmentComparator] / [SweepLine] classes (second document of
    [src/lib/util/GeometryConstants.ts]).

    - JavaScript numbers are IEEE 754 binary64 values: coordinates are
      primitive floats, so [/], [*], [<] and [===] behave as in the source,
      including [Infinity] and [NaN] for vertical edges.
    - Ring and edge numbers are array indices: natural numbers.
    - [Segment] objects are mutable and shared between the tree, the
      registry and the [above]/[below] fields of other segments: they live
      in a heap and are referred to by location.
    - A JavaScript exception ends the call: operations return a [result]. *)

From Stdlib Require Import ZArith.
From Stdlib Require Import Floats.PrimFloat Floats.SpecFloat Floats.FloatOps.
From Stdlib Require Import Floats.FloatAxioms.
From stdpp Require Import gmap strings list.

(** ** Numbers, points, rings, events *)

Abbreviation number := PrimFloat.float.

(** [Point]: only [x] and [y] are read by the sweep. *)
Record Point := mkPoint { point_x : number; point_y : number }.

(** [first.x === last.x && first.y === last.y] *)
Definition point_equal (p q : Point) : bool :=
  PrimFloat.eqb (point_x p) (point_x q) && PrimFloat.eqb (point_y p) (point_y q).

Record LineString := mkLineString { points : list Point }.

Definition numPoints (ls : LineString) : nat := length (points ls).

Definition createFromPoints (ps : list Point) : LineString := mkLineString ps.

Inductive EventType := Left | Right.

Record Event := mkEvent {
  event_edge : nat;
  event_ring : nat;
  event_point : Point;
  event_type : EventType
}.

(** ** Exceptions *)

Inductive exn :=
| SFException (msg : string)
| TypeError (msg : string).

Inductive result (A : Type) : Type :=
| Ok (a : A)
| Throw (e : exn).
Arguments Ok {A} a.
Arguments Throw {A} e.

#[global] Instance result_ret : MRet result := fun A a => Ok a.
#[global] Instance result_bind : MBind result := fun A B f m =>
  match m with
  | Ok a => f a
  | Throw e => Throw e
  end.

Definition is_Ok {A} (r : result A) : bool :=
  match r with Ok _ => true | Throw _ => false end.

(** Reading [o.field] where [o] may be [undefined]. *)
Definition defined {A} (o : option A) (what : string) : result A :=
  match o with
  | Some a => Ok a
  | None => Throw (TypeError what)
  end.

(** ** Segments *)

Definition loc := nat.

Record Segment := mkSegment {
  edge : nat;
  ring : nat;
  leftPoint : Point;
  rightPoint : Point;
  above : option loc;
  below : option loc
}.

Definition with_above (v : option loc) (s : Segment) : Segment :=
  mkSegment (edge s) (ring s) (leftPoint s) (rightPoint s) v (below s).

Definition with_below (v : option loc) (s : Segment) : Segment :=
  mkSegment (edge s) (ring s) (leftPoint s) (rightPoint s) (above s) v.

(** ** Static helpers of [SweepLine] *)

(** [SweepLine.yValueAtX] *)
Definition yValueAtX (segment : Segment) (x : number) : number :=
  let left := leftPoint segment in
  let right := rightPoint segment in
  let m := ((point_y right - point_y left) / (point_x right - point_x left))%float in
  let b := (point_y left - m * point_x left)%float in
  (m * x + b)%float.

(** [SweepLine.xyOrder] *)
Definition xyOrder (point1 point2 : Point) : Z :=
  if PrimFloat.ltb (point_x point2) (point_x point1) then 1%Z
  else if PrimFloat.ltb (point_x point1) (point_x point2) then (-1)%Z
  else if PrimFloat.ltb (point_y point2) (point_y point1) then 1%Z
  else if PrimFloat.ltb (point_y point1) (point_y point2) then (-1)%Z
  else 0%Z.

(** [SweepLine.isLeftPoints] *)
Definition isLeftPoints (point0 point1 point2 : Point) : number :=
  ((point_x point1 - point_x point0) * (point_y point2 - point_y point0)
   - (point_x point2 - point_x point0) * (point_y point1 - point_y point0))%float.

(** [SweepLine.isLeft] *)
Definition isLeft (segment : Segment) (point : Point) : number :=
  isLeftPoints (leftPoint segment) (rightPoint segment) point.

(** ** The ordering comparator *)

Module SegmentComparator.

Record t := mk { _x : option number }.

(** [SegmentComparator.compare] *)
Definition compare (this : t) (segment1 segment2 : Segment) : result Z :=
  match _x this with
  | None => Throw (SFException "X value not set")
  | Some x =>
      let y1 := yValueAtX segment1 x in
      let y2 := yValueAtX segment2 x in
      Ok (if PrimFloat.ltb y1 y2 then (-1)%Z
          else if PrimFloat.ltb y2 y1 then 1%Z
          else if (ring segment1 <? ring segment2)%nat then (-1)%Z
          else if (ring segment2 <? ring segment1)%nat then 1%Z
          else if (edge segment1 <? edge segment2)%nat then (-1)%Z
          else if (edge segment2 <? edge segment1)%nat then 1%Z
          else 0%Z)
  end.

End SegmentComparator.

(** ** The status structure *)

Module ExtendedRedBlackTree.

(** Modelled from the spec: [ExtendedRedBlackTree.ts] is not among the
    sources. Section 4.4 describes it as a balanced binary search tree ordered
    by the comparator, with [insert], [find], [predecessor], [successor] and
    [remove(segment) -> removed:boolean]. The tree is represented by its
    in-order sequence, lowest segment first; a node is a position in that
    sequence. A search walks the sequence upwards and stops at the first
    stored value that does not compare below the searched one. Every search
    tree holding values which the comparator orders consistently answers
    these five operations as this sequence does. A value comparing equal to
    a stored one is not inserted again. *)
Section operations.
Context {A : Type} (compare : A -> A -> result Z).

Fixpoint insert (v : A) (tree : list A) : result (list A) :=
  match tree with
  | [] => Ok [v]
  | u :: rest =>
      c ← compare v u;
      if (c <? 0)%Z then Ok (v :: u :: rest)
      else if (c =? 0)%Z then Ok (u :: rest)
      else rest' ← insert v rest; Ok (u :: rest')
  end.

Fixpoint findNode (v : A) (tree : list A) : result (option nat) :=
  match tree with
  | [] => Ok None
  | u :: rest =>
      c ← compare v u;
      if (c <? 0)%Z then Ok None
      else if (c =? 0)%Z then Ok (Some 0)
      else node ← findNode v rest; Ok (fmap (M:=option) S node)
  end.

Fixpoint remove (v : A) (tree : list A) : result (bool * list A) :=
  match tree with
  | [] => Ok (false, [])
  | u :: rest =>
      c ← compare v u;
      if (c <? 0)%Z then Ok (false, u :: rest)
      else if (c =? 0)%Z then Ok (true, rest)
      else r ← remove v rest; Ok (r.1, u :: r.2)
  end.

Definition getSuccessor (tree : list A) (node : nat) : option A :=
  tree !! S node.

Definition getPredecessor (tree : list A) (node : nat) : option A :=
  match node with
  | 0 => None
  | S n => tree !! n
  end.

End operations.
End ExtendedRedBlackTree.

(** ** The sweep line *)

Module SweepLine.

(** Calls made on the tree, kept with the comparator's [x] at the time of
    the call. The history is not a field of the source class: it records the
    order in which [add] and [remove] set [x] and use the tree. *)
Inductive TreeCall :=
| TreeInsert (segment : loc)
| TreeFindNode (segment : loc)
| TreeRemove (segment : loc).

Record t := mk {
  _rings : list LineString;
  _comparator : SegmentComparator.t;
  _tree : list loc;
  _segments : gmap nat (gmap nat loc);
  heap : list Segment;
  calls : list (TreeCall * option number)
}.

(** A method of the class: reads and updates [this], or throws. *)
Definition M (A : Type) : Type := t -> result (A * t).

#[global] Instance M_ret : MRet M := fun A a this => Ok (a, this).
#[global] Instance M_bind : MBind M := fun A B f m this =>
  match m this with
  | Ok (a, this') => f a this'
  | Throw e => Throw e
  end.

Definition throw {A} (e : exn) : M A := fun _ => Throw e.

Definition lift {A} (r : result A) : M A := fun this =>
  match r with
  | Ok a => Ok (a, this)
  | Throw e => Throw e
  end.

Definition gets {A} (f : t -> A) : M A := fun this => Ok (f this, this).

Definition modify (f : t -> t) : M unit := fun this => Ok (tt, f this).

Definition set_x (x : option number) (this : t) : t :=
  mk (_rings this) (SegmentComparator.mk x) (_tree this) (_segments this)
     (heap this) (calls this).

Definition set_tree (tree : list loc) (this : t) : t :=
  mk (_rings this) (_comparator this) tree (_segments this) (heap this)
     (calls this).

Definition set_segments (segments : gmap nat (gmap nat loc)) (this : t) : t :=
  mk (_rings this) (_comparator this) (_tree this) segments (heap this)
     (calls this).

Definition set_heap (h : list Segment) (this : t) : t :=
  mk (_rings this) (_comparator this) (_tree this) (_segments this) h
     (calls this).

Definition logged (call : TreeCall) (this : t) : t :=
  mk (_rings this) (_comparator this) (_tree this) (_segments this) (heap this)
     (calls this ++ [(call, SegmentComparator._x (_comparator this))]).

(** [new SweepLine(rings)] *)
Definition new (rings : list LineString) : t :=
  mk rings (SegmentComparator.mk None) [] ∅ [] [].

Definition deref (segment : loc) : M Segment := fun this =>
  lift (defined (heap this !! segment) "segment") this.

Definition set_above (segment : loc) (v : option loc) : M unit :=
  modify (fun this => set_heap (alter (with_above v) segment (heap this)) this).

Definition set_below (segment : loc) (v : option loc) : M unit :=
  modify (fun this => set_heap (alter (with_below v) segment (heap this)) this).

(** [this._comparator.compare.bind(this._comparator)], on stored segments *)
Definition bound_compare (this : t) (l1 l2 : loc) : result Z :=
  segment1 ← defined (heap this !! l1) "segment";
  segment2 ← defined (heap this !! l2) "segment";
  SegmentComparator.compare (_comparator this) segment1 segment2.

Definition tree_insert (segment : loc) : M unit := fun this =>
  tree ← ExtendedRedBlackTree.insert (bound_compare this) segment (_tree this);
  Ok (tt, logged (TreeInsert segment) (set_tree tree this)).

Definition tree_findNode (segment : loc) : M (option nat) := fun this =>
  node ← ExtendedRedBlackTree.findNode (bound_compare this) segment (_tree this);
  Ok (node, logged (TreeFindNode segment) this).

Definition tree_remove (segment : loc) : M bool := fun this =>
  r ← ExtendedRedBlackTree.remove (bound_compare this) segment (_tree this);
  Ok (r.1, logged (TreeRemove segment) (set_tree r.2 this)).

(** [SweepLine.createSegment] *)
Definition createSegment (event : Event) : M loc := fun this =>
  let edgeNumber := event_edge event in
  let ringNumber := event_ring event in
  ring_ ← defined (_rings this !! ringNumber) "ring";
  let points := points ring_ in
  point1 ← defined (points !! edgeNumber) "point1";
  point2 ← defined (points !! ((edgeNumber + 1) mod length points)) "point2";
  let lr := if (xyOrder point1 point2 <? 0)%Z
            then (point1, point2) else (point2, point1) in
  Ok (length (heap this),
      set_heap (heap this ++ [mkSegment edgeNumber ringNumber lr.1 lr.2 None None])
               this).

Definition register (s : Segment) (segment : loc) (this : t) : t :=
  let edgeMap := default ∅ (_segments this !! ring s) in
  set_segments (<[ring s := <[edge s := segment]> edgeMap]> (_segments this)) this.

Definition unregister (s : Segment) (this : t) : t :=
  set_segments (alter (delete (edge s)) (ring s) (_segments this)) this.

(** [SweepLine.add] *)
Definition add (event : Event) : M loc :=
  segment ← createSegment event;
  modify (set_x (Some (point_x (event_point event))));;
  tree_insert segment;;
  current ← tree_findNode segment;
  match current with
  | None => throw (SFException "Segment not found")
  | Some current =>
      tree ← gets _tree;
      let next := ExtendedRedBlackTree.getSuccessor tree current in
      let previous := ExtendedRedBlackTree.getPredecessor tree current in
      match next with
      | Some n => set_above segment (Some n);; set_below n (Some segment)
      | None => mret tt
      end;;
      match previous with
      | Some p => set_below segment (Some p);; set_above p (Some segment)
      | None => mret tt
      end;;
      s ← deref segment;
      modify (register s segment);;
      mret segment
  end.

(** [SweepLine.find] *)
Definition find (event : Event) : M loc := fun this =>
  match _segments this !! event_ring event ≫= (.!! event_edge event) with
  | Some segment => Ok (segment, this)
  | None => Throw (SFException "Segment not found")
  end.

(** [a % n]: [NaN] when [n] is zero. *)
Definition js_rem (a n : nat) : option nat :=
  if (n =? 0)%nat then None else Some (a mod n).

(** [SweepLine.intersect] *)
Definition intersect (segment1 segment2 : option loc) : M bool :=
  match segment1, segment2 with
  | Some l1, Some l2 =>
      s1 ← deref l1;
      s2 ← deref l2;
      let ring1 := ring s1 in
      let ring2 := ring s2 in
      consecutive ←
        (if (ring1 =? ring2)%nat then
           let edge1 := edge s1 in
           let edge2 := edge s2 in
           rings ← gets _rings;
           ring_ ← lift (defined (rings !! ring1) "ring");
           let ringPoints := numPoints ring_ in
           mret (bool_decide (js_rem (edge1 + 1) ringPoints = Some edge2)
                 || bool_decide (Some edge1 = js_rem (edge2 + 1) ringPoints))
         else mret false);
      if negb consecutive then
        let left := isLeft s1 (leftPoint s2) in
        let right := isLeft s1 (rightPoint s2) in
        if PrimFloat.leb (left * right) 0 then
          let left := isLeft s2 (leftPoint s1) in
          let right := isLeft s2 (rightPoint s1) in
          mret (PrimFloat.leb (left * right) 0)
        else mret false
      else mret false
  | _, _ => mret false
  end.

(** [SweepLine.remove] *)
Definition remove (segment : loc) : M unit :=
  removed ← tree_remove segment;
  removed ← (if removed : bool then
               s ← deref segment;
               modify (set_x (Some (point_x (leftPoint s))));;
               tree_remove segment
             else mret removed);
  if removed : bool then
    s ← deref segment;
    let above := above s in
    let below := below s in
    match above with
    | Some a => set_below a below
    | None => mret tt
    end;;
    match below with
    | Some b => set_above b above
    | None => mret tt
    end;;
    modify (unregister s)
  else mret tt.

End SweepLine.

(** ** Collaborators that are not among the sources *)

(** Modelled from the spec: [GeometryUtils] is not among the sources. Section
    1 treats the point-in-ring containment test as a provided primitive
    [pointInRing(point, ring) -> bool]; the two entry points the driver calls
    are taken as parameters. *)
Class GeometryUtils := {
  pointInPolygonRing : Point -> LineString -> bool;
  pointInPolygonRingPoints : Point -> list Point -> bool
}.

(** Modelled from the spec: [EventQueue] is not among the sources. Section
    4.2: for every edge of every ring the two end points are ordered by XY
    order, a Left event is emitted at the left point and a Right event at the
    right point, both tagged with the ring and edge numbers. *)
Definition edgeEvents (ringNumber : nat) (ps : list Point) (edgeNumber : nat)
  : list Event :=
  match ps !! edgeNumber, ps !! ((edgeNumber + 1) mod length ps) with
  | Some point1, Some point2 =>
      let lr := if (xyOrder point1 point2 <? 0)%Z
                then (point1, point2) else (point2, point1) in
      [mkEvent edgeNumber ringNumber lr.1 Left;
       mkEvent edgeNumber ringNumber lr.2 Right]
  | _, _ => []
  end.

Definition ringEvents (ringNumber : nat) (ring_ : LineString) : list Event :=
  flat_map (edgeEvents ringNumber (points ring_)) (seq 0 (numPoints ring_)).

Definition allEvents (rings : list LineString) : list Event :=
  concat (imap ringEvents rings).

(** Modelled from the spec: section 4.2 sorts the events by point x, then by
    point y, and leaves the order of events at one point to the
    implementation. *)
Fixpoint xy_sorted (queue : list Event) : bool :=
  match queue with
  | [] => true
  | e :: rest =>
      forallb (fun e' => (xyOrder (event_point e) (event_point e') <=? 0)%Z) rest
      && xy_sorted rest
  end.

(** What section 4.2 requires of the sequence an event queue yields. *)
Definition EventQueue_spec (queue : list Event) (rings : list LineString) : Prop :=
  queue ≡ₚ allEvents rings ∧ xy_sorted queue = true.

(** One event queue that meets the requirement: a stable sort, which keeps
    events at one point in the order of their edges. *)
Fixpoint insert_event (e : Event) (queue : list Event) : list Event :=
  match queue with
  | [] => [e]
  | e' :: rest =>
      if (xyOrder (event_point e) (event_point e') <=? 0)%Z
      then e :: e' :: rest
      else e' :: insert_event e rest
  end.

Definition stableEventQueue (rings : list LineString) : list Event :=
  foldr insert_event [] (allEvents rings).

(** ** The driver *)

Module ShamosHoey.
Section driver.
Context {GU : GeometryUtils}.

(** [new EventQueue(ringCopies)], iterated. The class is not among the
    sources: the driver takes it as a parameter, and [EventQueue_spec] says
    what section 4.2 asks of the sequence it yields. *)
Variable EventQueue : list LineString -> list Event.

(** "Remove the last point when identical to the first" *)
Definition dropClosingPoint (ringCopyPoints : list Point) : list Point :=
  if (3 <=? length ringCopyPoints)%nat then
    match head ringCopyPoints, last ringCopyPoints with
    | Some first, Some final =>
        if point_equal first final then removelast ringCopyPoints
        else ringCopyPoints
    | _, _ => ringCopyPoints
    end
  else ringCopyPoints.

(** The loop over [j]: "Make sure the hole first points are not inside of
    one another". The result is the value of [simple] after the loop. *)
Fixpoint holesApart (firstPoint : Point) (ringCopyPoints : list Point)
    (holes : list LineString) : result bool :=
  match holes with
  | [] => Ok true
  | hole :: rest =>
      let holePoints := points hole in
      if pointInPolygonRingPoints firstPoint holePoints then Ok false
      else
        hole0 ← defined (holePoints !! 0) "holePoints[0]";
        if pointInPolygonRingPoints hole0 ringCopyPoints then Ok false
        else holesApart firstPoint ringCopyPoints rest
  end.

(** The loop over [i], from ring [i] on, with the copies made so far. The
    result is [false] when the loop left through a [break], and the list of
    ring copies. *)
Fixpoint checkRings (rings : list LineString) (i : nat)
    (todo : list LineString) (ringCopies : list LineString)
  : result (bool * list LineString) :=
  match todo with
  | [] => Ok (true, ringCopies)
  | ring_ :: todo' =>
      let ringCopyPoints := dropClosingPoint (points ring_) in
      let ringCopies := ringCopies ++ [mkLineString ringCopyPoints] in
      if (length ringCopyPoints <? 3)%nat then Ok (false, ringCopies)
      else if (0 <? i)%nat then
        firstPoint ← defined (ringCopyPoints !! 0) "firstPoint";
        ring0 ← defined (rings !! 0) "rings[0]";
        if negb (pointInPolygonRing firstPoint ring0) then Ok (false, ringCopies)
        else
          apart ← holesApart firstPoint ringCopyPoints
                    (take (i - 1) (drop 1 rings));
          if apart : bool then checkRings rings (S i) todo' ringCopies
          else Ok (false, ringCopies)
      else checkRings rings (S i) todo' ringCopies
  end.

(** The loop [for (const event of eventQueue)]; the result is [simple]. *)
Fixpoint sweep (events : list Event) : SweepLine.M bool :=
  match events with
  | [] => mret true
  | event :: rest =>
      match event_type event with
      | Left =>
          segment ← SweepLine.add event;
          s ← SweepLine.deref segment;
          hitBelow ← SweepLine.intersect (Some segment) (below s);
          if hitBelow : bool then mret false
          else
            hitAbove ← SweepLine.intersect (Some segment) (above s);
            if hitAbove : bool then mret false
            else sweep rest
      | Right =>
          segment ← SweepLine.find event;
          s ← SweepLine.deref segment;
          hit ← SweepLine.intersect (above s) (below s);
          if hit : bool then mret false
          else SweepLine.remove segment;; sweep rest
      end
  end.

(** [ShamosHoey.simplePolygonLineStrings] *)
Definition simplePolygonLineStrings (rings : list LineString) : result bool :=
  checked ← checkRings rings 0 rings [];
  let simple := negb (length rings =? 0)%nat && checked.1 in
  let ringCopies := checked.2 in
  if simple then
    let eventQueue := EventQueue ringCopies in
    let sweepLine := SweepLine.new ringCopies in
    r ← sweep eventQueue sweepLine;
    Ok r.1
  else Ok false.

(** [ShamosHoey.simplePolygonLineString] *)
Definition simplePolygonLineString (ring_ : LineString) : result bool :=
  simplePolygonLineStrings [ring_].

(** [ShamosHoey.simplePolygonRingPoints] *)
Definition simplePolygonRingPoints (pointRings : list (list Point)) : result bool :=
  simplePolygonLineStrings (map createFromPoints pointRings).

(** [ShamosHoey.simplePolygonPoints] *)
Definition simplePolygonPoints (ps : list Point) : result bool :=
  simplePolygonLineString (createFromPoints ps).

End driver.
End ShamosHoey.

(** * The geometry root, the finite filter, curves and the envelope builder *)

(** ** [Geometry] *)

Module Geometry.
Section geometry.

(** [GeometryType] is an enumeration declared outside the sources; its
    values are compared with [!==] only. *)
Context {GeometryType : Type} `{EqDecision GeometryType}.

(** The fields of the abstract class. *)
Record t := mk {
  geometryType : GeometryType;
  hasZ : bool;
  hasM : bool
}.

(** [Geometry.updateZM]: [this] after the call. *)
Definition updateZM (this geometry : t) : t :=
  let this := if negb (hasZ this)
              then mk (geometryType this) (hasZ geometry) (hasM this)
              else this in
  if negb (hasM this)
  then mk (geometryType this) (hasZ this) (hasM geometry)
  else this.

(** The static [Geometry.hasZ(geometries)]: a loop with a [break]. *)
Fixpoint static_hasZ (geometries : list t) : bool :=
  match geometries with
  | [] => false
  | geometry :: rest => if hasZ geometry then true else static_hasZ rest
  end.

(** The static [Geometry.hasM(geometries)]. *)
Fixpoint static_hasM (geometries : list t) : bool :=
  match geometries with
  | [] => false
  | geometry :: rest => if hasM geometry then true else static_hasM rest
  end.

(** [Geometry.equals] *)
Definition equals (this obj : t) : bool :=
  negb (negb (bool_decide (geometryType this = geometryType obj))
        || negb (Bool.eqb (hasM this) (hasM obj))
        || negb (Bool.eqb (hasZ this) (hasZ obj))).

End geometry.
End Geometry.

(** ** Points with z and m *)

(** [Point] is declared outside the sources. The filter and the envelope
    builder read [x], [y], the optional [z] and [m], and the flags [hasZ] and
    [hasM]. *)
Record PointZM := mkPointZM {
  xy : Point;
  point_z : option number;
  point_m : option number;
  point_hasZ : bool;
  point_hasM : bool
}.

(** ** [PointFiniteFilter] *)

Module PointFiniteFilter.

(** [FiniteFilterType] is declared outside the sources; its members are the
    three the [switch] of [filterValue] names, so the [default] branch of
    that [switch] is not reached. *)
Inductive FiniteFilterType := Finite | FiniteAndInfinite | FiniteAndNan.

Record t := mk {
  _type : FiniteFilterType;
  _filterZ : bool;
  _filterM : bool
}.

(** [PointFiniteFilter.filterValue]: [Number.isFinite] and [Number.isNaN]
    on a number. *)
Definition filterValue (this : t) (value : number) : bool :=
  match _type this with
  | Finite => PrimFloat.is_finite value
  | FiniteAndInfinite => negb (PrimFloat.is_nan value)
  | FiniteAndNan => PrimFloat.is_finite value || PrimFloat.is_nan value
  end.

(** [PointFiniteFilter.filterZ] *)
Definition filterZ (this : t) (point : PointZM) : result bool :=
  match point_z point with
  | None => Throw (SFException "Point does not have z value")
  | Some z => Ok (negb (_filterZ this && point_hasZ point) || filterValue this z)
  end.

(** [PointFiniteFilter.filterM] *)
Definition filterM (this : t) (point : PointZM) : result bool :=
  match point_m point with
  | None => Throw (SFException "Point does not have m value")
  | Some m => Ok (negb (_filterM this && point_hasM point) || filterValue this m)
  end.

(** [PointFiniteFilter.filterPoint]: [&&] evaluates its right operand only
    when the left one is true. *)
Definition filterPoint (this : t) (point : PointZM) : result bool :=
  if filterValue this (point_x (xy point)) then
    if filterValue this (point_y (xy point)) then
      passesZ ← filterZ this point;
      if passesZ : bool then filterM this point else Ok false
    else Ok false
  else Ok false.

(** [PointFiniteFilter.filter]: [geometry] is [Some point] for a geometry
    that is a [Point] with geometry type [Point], and [None] for any other
    geometry. *)
Definition filter (this : t) (geometry : option PointZM) : result bool :=
  match geometry with
  | None => Ok true
  | Some point => filterPoint this point
  end.

End PointFiniteFilter.

(** ** [Curve] and [MultiCurve] *)

Module MultiCurve.
Section curves.

(** [Curve] is abstract: [isEmpty], [startPoint] and [endPoint] come from
    its subclasses, and [Point.equals] from [Point]; they are parameters. A
    subclass may throw from [startPoint] or [endPoint]. *)
Context {Curve PointT : Type}.
Variable isEmpty : Curve -> bool.
Variable startPoint endPoint : Curve -> result PointT.
Variable point_equals : PointT -> PointT -> bool.

(** [Curve.isClosed] *)
Definition curve_isClosed (this : Curve) : result bool :=
  if negb (isEmpty this) then
    start ← startPoint this;
    finish ← endPoint this;
    Ok (point_equals start finish)
  else Ok false.

(** [MultiCurve.isClosed], over [this.geometries] *)
Fixpoint isClosed (geometries : list Curve) : result bool :=
  match geometries with
  | [] => Ok true
  | curve :: rest =>
      closed ← curve_isClosed curve;
      if negb closed then Ok false else isClosed rest
  end.

End curves.
End MultiCurve.

(** ** [GeometryEnvelopeBuilder] *)

Module GeometryEnvelopeBuilder.

(** [GeometryEnvelope] is declared outside the sources. The builder reads
    and writes the bounds of x and y, the optional bounds of z and m, and the
    flags [hasZ] and [hasM]. *)
Record GeometryEnvelope := mkEnvelope {
  minX : number;
  maxX : number;
  minY : number;
  maxY : number;
  minZ : option number;
  maxZ : option number;
  minM : option number;
  maxM : option number;
  hasZ : bool;
  hasM : bool
}.

(** [GeometryEnvelopeBuilder.updateHasZandM], with the two flags of the
    geometry *)
Definition updateHasZandM (envelope : GeometryEnvelope)
    (geometry_hasZ geometry_hasM : bool) : GeometryEnvelope :=
  mkEnvelope (minX envelope) (maxX envelope) (minY envelope) (maxY envelope)
    (minZ envelope) (maxZ envelope) (minM envelope) (maxM envelope)
    (if negb (hasZ envelope) && geometry_hasZ then true else hasZ envelope)
    (if negb (hasM envelope) && geometry_hasM then true else hasM envelope).

(** [v < bound] where the bound may be [null]: the new lower bound. *)
Definition lower (bound : option number) (v : number) : option number :=
  match bound with
  | None => Some v
  | Some b => if PrimFloat.ltb v b then Some v else Some b
  end.

Definition upper (bound : option number) (v : number) : option number :=
  match bound with
  | None => Some v
  | Some b => if PrimFloat.ltb b v then Some v else Some b
  end.

(** [GeometryEnvelopeBuilder.addPoint] *)
Definition addPoint (envelope : GeometryEnvelope) (point : PointZM)
  : GeometryEnvelope :=
  let envelope := updateHasZandM envelope (point_hasZ point) (point_hasM point) in
  let x := point_x (xy point) in
  let y := point_y (xy point) in
  let minX' := if PrimFloat.ltb x (minX envelope) then x else minX envelope in
  let maxX' := if PrimFloat.ltb (maxX envelope) x then x else maxX envelope in
  let minY' := if PrimFloat.ltb y (minY envelope) then y else minY envelope in
  let maxY' := if PrimFloat.ltb (maxY envelope) y then y else maxY envelope in
  let zs := match point_hasZ point, point_z point with
            | true, Some z => (lower (minZ envelope) z, upper (maxZ envelope) z)
            | _, _ => (minZ envelope, maxZ envelope)
            end in
  let ms := match point_hasM point, point_m point with
            | true, Some m => (lower (minM envelope) m, upper (maxM envelope) m)
            | _, _ => (minM envelope, maxM envelope)
            end in
  mkEnvelope minX' maxX' minY' maxY' zs.1 zs.2 ms.1 ms.2
    (hasZ envelope) (hasM envelope).

(** A line string as the builder reads it: its flags and its points. *)
Record LineStringZM := mkLineStringZM {
  line_hasZ : bool;
  line_hasM : bool;
  line_points : list PointZM
}.

(** [GeometryEnvelopeBuilder.addLineString] *)
Definition addLineString (envelope : GeometryEnvelope) (lineString : LineStringZM)
  : GeometryEnvelope :=
  foldl addPoint
    (updateHasZandM envelope (line_hasZ lineString) (line_hasM lineString))
    (line_points lineString).

(** A polygon as the builder reads it: its flags and its rings. *)
Record PolygonZM := mkPolygonZM {
  polygon_hasZ : bool;
  polygon_hasM : bool;
  polygon_rings : list LineStringZM
}.

(** [GeometryEnvelopeBuilder.addPolygon] *)
Definition addPolygon (envelope : GeometryEnvelope) (polygon : PolygonZM)
  : GeometryEnvelope :=
  foldl addLineString
    (updateHasZandM envelope (polygon_hasZ polygon) (polygon_hasM polygon))
    (polygon_rings polygon).

End GeometryEnvelopeBuilder.

(** * Properties *)

(** ** Concrete collaborators and rings used in examples *)

(** A point-in-ring primitive that gives one answer for the exterior ring
    and one for holes. *)
Definition constGeometryUtils (inRing inHole : bool) : GeometryUtils :=
  {| pointInPolygonRing := fun _ _ => inRing;
     pointInPolygonRingPoints := fun _ _ => inHole |}.

Definition square : list Point :=
  [mkPoint 0 0; mkPoint 4 0; mkPoint 4 4; mkPoint 0 4; mkPoint 0 0].

Definition bowtie : list Point :=
  [mkPoint 0 0; mkPoint 4 4; mkPoint 4 0; mkPoint 0 4; mkPoint 0 0].

Definition closedTriangle : list Point :=
  [mkPoint 0 0; mkPoint 3 0; mkPoint 0 3; mkPoint 0 0].

(** The ring copies the driver makes of [square], and the sweep line after
    the first [n] events of its stable event queue. *)
Definition squareCopies : list LineString :=
  [mkLineString (ShamosHoey.dropClosingPoint square)].

Definition stateAfter (ringCopies : list LineString) (events : list Event)
  : SweepLine.t :=
  match ShamosHoey.sweep events (SweepLine.new ringCopies) with
  | Ok (_, this) => this
  | Throw _ => SweepLine.new ringCopies
  end.

Definition squareAfter (n : nat) : SweepLine.t :=
  stateAfter squareCopies (take n (stableEventQueue squareCopies)).

Definition bowtieCopies : list LineString :=
  [mkLineString (ShamosHoey.dropClosingPoint bowtie)].

(** The result of the sweep alone, on given ring copies and a given queue. *)
Definition sweepResult (ringCopies : list LineString) (queue : list Event)
  : result bool :=
  r ← ShamosHoey.sweep queue (SweepLine.new ringCopies);
  Ok r.1.

Definition is_result (expected : bool) (r : result bool) : bool :=
  match r with
  | Ok b => Bool.eqb expected b
  | Throw _ => false
  end.

(** A check of the sweep under every order of the events that section 4.2
    allows: every permutation of the events that is sorted by x, then y. *)
Definition every_order (ringCopies : list LineString)
    (accept : result bool -> bool) : bool :=
  forallb (fun queue => implb (xy_sorted queue)
                              (accept (sweepResult ringCopies queue)))
          (permutations (allEvents ringCopies)).

(** Section 4.1 in its own words: "if the first and last point are
    numerically equal (x and y), drop the last point". *)
Definition closingPointDropped (ps : list Point) : list Point :=
  match head ps, last ps with
  | Some first, Some final =>
      if point_equal first final then removelast ps else ps
  | _, _ => ps
  end.

(** Ring [r], at index [k] of [rings], is one the preprocessor refuses for
    its own sake: too few points, or a hole whose first point is not inside
    ring 0. *)
Definition refused `{GeometryUtils} (rings : list LineString) (k : nat)
    (r : LineString) : Prop :=
  length (ShamosHoey.dropClosingPoint (points r)) < 3
  \/ (0 < k /\ exists firstPoint ring0,
        ShamosHoey.dropClosingPoint (points r) !! 0 = Some firstPoint
        /\ rings !! 0 = Some ring0
        /\ pointInPolygonRing firstPoint ring0 = false).

(** Appending the first point as an extra last point leaves the result of
    the check on a single ring unchanged: the property as the specification
    states it, for every ring. *)
Definition closure_idempotent `{GeometryUtils}
    (EventQueue : list LineString -> list Event) : Prop :=
  forall (R : list Point) (first : Point),
    head R = Some first ->
    ShamosHoey.simplePolygonRingPoints EventQueue [R]
    = ShamosHoey.simplePolygonRingPoints EventQueue [R ++ [first]].

(** The ring copy the driver makes of [closedTriangle] with its first point
    appended once more: one closing point is dropped, one stays. *)
Definition closedTriangleCopies : list LineString :=
  [mkLineString closedTriangle].

Definition triangleCopies : list LineString :=
  [mkLineString (ShamosHoey.dropClosingPoint closedTriangle)].

(** The sweep line of the square after [SweepLine.remove] of the segment of
    edge 3 (location 1), called for the fourth event. *)
Definition squareRemoved : SweepLine.t :=
  match SweepLine.remove 1 (squareAfter 3) with
  | Ok (_, this') => this'
  | Throw _ => squareAfter 3
  end.






(** The ring and edge numbers of a stored segment. *)
Definition key (this : SweepLine.t) (segment : loc) : option (nat * nat) :=
  (fun s => (ring s, edge s)) <$> SweepLine.heap this !! segment.

(** ** Notions used in the further properties *)

(** The fields of a segment that its constructor sets. *)
Definition same_geometry (s s' : Segment) : Prop :=
  edge s' = edge s /\ ring s' = ring s
  /\ leftPoint s' = leftPoint s /\ rightPoint s' = rightPoint s.

(** Every segment of the tree is a stored segment. *)
Definition valid_tree (this : SweepLine.t) : Prop :=
  Forall (fun l => l < length (SweepLine.heap this)) (SweepLine._tree this).

(** The writes of [add] to the [above] and [below] fields, for the successor
    [next] and the predecessor [previous] it found. *)
Definition linkNext (segment : loc) (next : option loc) (h : list Segment)
  : list Segment :=
  match next with
  | Some n => alter (with_below (Some segment)) n
                (alter (with_above (Some n)) segment h)
  | None => h
  end.

Definition linkPrevious (segment : loc) (previous : option loc)
    (h : list Segment) : list Segment :=
  match previous with
  | Some p => alter (with_above (Some segment)) p
                (alter (with_below (Some p)) segment h)
  | None => h
  end.

(** The registry entry of ring [r] and edge [e]. *)
Definition registered (this : SweepLine.t) (r e : nat) : option loc :=
  SweepLine._segments this !! r ≫= (.!! e).

(** Two heaps hold the same segments up to their [above] and [below]
    fields. *)
Definition links_only (h h' : list Segment) : Prop :=
  forall k, match h !! k, h' !! k with
            | Some s, Some s' => same_geometry s s'
            | None, None => True
            | _, _ => False
            end.

(** Every segment of heap [h] is still in [h'], at its place and with the
    fields its constructor set. *)
Definition heap_kept (h h' : list Segment) : Prop :=
  forall l s, h !! l = Some s ->
              exists s', h' !! l = Some s' /\ same_geometry s s'.

(** The copy the driver makes of a ring: its points without the closing
    point. *)
Definition ringCopy (r : LineString) : LineString :=
  mkLineString (ShamosHoey.dropClosingPoint (points r)).

(** Ring [r], at index [k] of [rings], passes every test of the loop over
    the rings: its copy has three points or more and, for a hole, the first
    point of the copy is inside ring 0, is in no earlier hole, and no earlier
    hole has its first point in the copy. *)
Definition accepted `{GeometryUtils} (rings : list LineString) (k : nat)
    (r : LineString) : Prop :=
  3 <= length (points (ringCopy r))
  /\ (0 < k ->
      exists firstPoint ring0,
        points (ringCopy r) !! 0 = Some firstPoint
        /\ rings !! 0 = Some ring0
        /\ pointInPolygonRing firstPoint ring0 = true
        /\ forall hole, hole ∈ take (k - 1) (drop 1 rings) ->
             pointInPolygonRingPoints firstPoint (points hole) = false
             /\ exists hole0,
                  points hole !! 0 = Some hole0
                  /\ pointInPolygonRingPoints hole0 (points (ringCopy r)) = false).

(** Scenario 3 of the specification: a square with a square hole; and the
    same exterior with a second hole. *)
Definition squareWithHole : list (list Point) :=
  [[mkPoint 0 0; mkPoint 10 0; mkPoint 10 10; mkPoint 0 10];
   [mkPoint 2 2; mkPoint 2 8; mkPoint 8 8; mkPoint 8 2]].

Definition squareWithTwoHoles : list (list Point) :=
  squareWithHole ++ [[mkPoint 3 3; mkPoint 3 4; mkPoint 4 4]].

(** An event queue that yields the first Right event before everything
    else. *)
Definition rightFirstEventQueue (rings : list LineString) : list Event :=
  match List.find (fun e => match event_type e with
                            | Right => true
                            | Left => false
                            end) (stableEventQueue rings) with
  | Some e => e :: stableEventQueue rings
  | None => stableEventQueue rings
  end.

(** ** Notions used for filters, curves and envelopes *)

(** Value [v] is inside the bounds [lo] and [hi]: both are set, and neither
    [v < lo] nor [v > hi] holds. *)
Definition within (lo hi : option number) (v : number) : bool :=
  match lo, hi with
  | Some l, Some h => negb (PrimFloat.ltb v l) && negb (PrimFloat.ltb h v)
  | _, _ => false
  end.

(** The envelope encloses the point: x and y are inside its bounds, and so
    are z and m where the point has them. *)
Definition encloses (envelope : GeometryEnvelopeBuilder.GeometryEnvelope)
    (point : PointZM) : bool :=
  within (Some (GeometryEnvelopeBuilder.minX envelope))
         (Some (GeometryEnvelopeBuilder.maxX envelope)) (point_x (xy point))
  && within (Some (GeometryEnvelopeBuilder.minY envelope))
            (Some (GeometryEnvelopeBuilder.maxY envelope)) (point_y (xy point))
  && match point_hasZ point, point_z point with
     | true, Some z => within (GeometryEnvelopeBuilder.minZ envelope)
                              (GeometryEnvelopeBuilder.maxZ envelope) z
     | _, _ => true
     end
  && match point_hasM point, point_m point with
     | true, Some m => within (GeometryEnvelopeBuilder.minM envelope)
                              (GeometryEnvelopeBuilder.maxM envelope) m
     | _, _ => true
     end.

(** Each of the four ranges of [e] lies in the same range of [e']. *)
Definition widens (e e' : GeometryEnvelopeBuilder.GeometryEnvelope) : Prop :=
  forall v,
    (within (Some (GeometryEnvelopeBuilder.minX e))
            (Some (GeometryEnvelopeBuilder.maxX e)) v = true ->
     within (Some (GeometryEnvelopeBuilder.minX e'))
            (Some (GeometryEnvelopeBuilder.maxX e')) v = true)
    /\ (within (Some (GeometryEnvelopeBuilder.minY e))
               (Some (GeometryEnvelopeBuilder.maxY e)) v = true ->
        within (Some (GeometryEnvelopeBuilder.minY e'))
               (Some (GeometryEnvelopeBuilder.maxY e')) v = true)
    /\ (within (GeometryEnvelopeBuilder.minZ e)
               (GeometryEnvelopeBuilder.maxZ e) v = true ->
        within (GeometryEnvelopeBuilder.minZ e')
               (GeometryEnvelopeBuilder.maxZ e') v = true)
    /\ (within (GeometryEnvelopeBuilder.minM e)
               (GeometryEnvelopeBuilder.maxM e) v = true ->
        within (GeometryEnvelopeBuilder.minM e')
               (GeometryEnvelopeBuilder.maxM e') v = true).

(** The envelope [buildEnvelope] starts from, before any point is added. *)
Definition startEnvelope : GeometryEnvelopeBuilder.GeometryEnvelope :=
  GeometryEnvelopeBuilder.mkEnvelope
    0x1.fffffffffffffp+1023 (-0x1.fffffffffffffp+1023)
    0x1.fffffffffffffp+1023 (-0x1.fffffffffffffp+1023)
    None None None None false false.

(** A two-dimensional point, with [z] and [m] unset. *)
Definition point2D (x y : number) : PointZM :=
  mkPointZM (mkPoint x y) None None false false.

(** A point with a z value. *)
Definition point3D (x y z : number) : PointZM :=
  mkPointZM (mkPoint x y) (Some z) None true false.

(** A curve given by its points: a line string. *)
Definition lineIsEmpty (curve : list Point) : bool :=
  match curve with [] => true | _ => false end.

Definition lineStartPoint (curve : list Point) : result Point :=
  match head curve with
  | Some p => Ok p
  | None => Throw (TypeError "undefined start point")
  end.

Definition lineEndPoint (curve : list Point) : result Point :=
  match last curve with
  | Some p => Ok p
  | None => Throw (TypeError "undefined end point")
  end.

(** A curve type whose end points throw for some curves. *)
Definition brokenStartPoint (curve : list Point) : result Point :=
  match curve with
  | [_] => Throw (SFException "no start point")
  | _ => lineStartPoint curve
  end.

(** ** Notions used for consecutive edges and for the comparator's x *)

(** Two segments are edges of one ring, with edge numbers that are
    cyclically consecutive with respect to the number of points of that ring
    in [rings]. *)
Definition consecutive (rings : list LineString) (s1 s2 : Segment) : Prop :=
  ring s1 = ring s2
  /\ exists ring_,
       rings !! ring s1 = Some ring_
       /\ numPoints ring_ <> 0
       /\ ((edge s1 + 1) mod numPoints ring_ = edge s2
           \/ (edge s2 + 1) mod numPoints ring_ = edge s1).




(** ** Unfolding the method monad *)

Ltac munfold :=
  unfold mbind, mret, SweepLine.M_bind, SweepLine.M_ret, result_bind, result_ret,
    SweepLine.throw, SweepLine.lift, SweepLine.gets, SweepLine.modify in *.

Lemma result_bind_Ok {A B} (m : result A) (f : A -> result B) (b : B) :
  m ≫= f = Ok b -> exists a, m = Ok a /\ f a = Ok b.
Proof. destruct m as [a|e]; [eauto | discriminate]. Qed.

Lemma M_bind_Ok {A B} (m : SweepLine.M A) (f : A -> SweepLine.M B) this b this'' :
  (m ≫= f) this = Ok (b, this'') ->
  exists a this', m this = Ok (a, this') /\ f a this' = Ok (b, this'').
Proof.
  unfold mbind, SweepLine.M_bind.
  destruct (m this) as [[a this']|e]; [eauto | discriminate].
Qed.

Lemma M_bind_Throw {A B} (m : SweepLine.M A) (f : A -> SweepLine.M B) this e :
  m this = Throw e -> (m ≫= f) this = Throw e.
Proof. unfold mbind, SweepLine.M_bind. intros ->. reflexivity. Qed.

Lemma M_bind_step {A B} (m : SweepLine.M A) (f : A -> SweepLine.M B) this a this' :
  m this = Ok (a, this') -> (m ≫= f) this = f a this'.
Proof. unfold mbind, SweepLine.M_bind. intros ->. reflexivity. Qed.

(** ** The empty ring list *)

(** C10: for the empty ring list [simplePolygonLineStrings] returns [false],
    whatever the event queue and the point-in-ring primitive are. *)
Theorem simplePolygonLineStrings_nil `{GeometryUtils}
    (EventQueue : list LineString -> list Event) :
  ShamosHoey.simplePolygonLineStrings EventQueue [] = Ok false.
Proof. reflexivity. Qed.

(** ** The comparator without a sweep x *)

(** C9: with its sweep x unset, [compare] throws the [SFException]
    "X value not set" for every pair of segments. The exception is the
    outcome of whatever called: of a removal that has to compare, of the
    sweep when [add], [find] or [remove] throws for the event at hand, and of
    the check when the sweep throws; none of them returns a boolean then. *)
Theorem compare_unset_throws `{GeometryUtils} :
  (forall segment1 segment2,
     SegmentComparator.compare (SegmentComparator.mk None) segment1 segment2
     = Throw (SFException "X value not set"))
  /\ (forall this segment u rest s su,
       SegmentComparator._x (SweepLine._comparator this) = None ->
       SweepLine._tree this = u :: rest ->
       SweepLine.heap this !! segment = Some s ->
       SweepLine.heap this !! u = Some su ->
       SweepLine.remove segment this = Throw (SFException "X value not set"))
  /\ (forall event rest this e,
       event_type event = Left ->
       SweepLine.add event this = Throw e ->
       ShamosHoey.sweep (event :: rest) this = Throw e)
  /\ (forall event rest this e,
       event_type event = Right ->
       SweepLine.find event this = Throw e ->
       ShamosHoey.sweep (event :: rest) this = Throw e)
  /\ (forall event rest this segment s e,
       event_type event = Right ->
       SweepLine.find event this = Ok (segment, this) ->
       SweepLine.heap this !! segment = Some s ->
       SweepLine.intersect (above s) (below s) this = Ok (false, this) ->
       SweepLine.remove segment this = Throw e ->
       ShamosHoey.sweep (event :: rest) this = Throw e)
  /\ (forall EventQueue rings ringCopies e,
       rings <> [] ->
       ShamosHoey.checkRings rings 0 rings [] = Ok (true, ringCopies) ->
       ShamosHoey.sweep (EventQueue ringCopies) (SweepLine.new ringCopies)
       = Throw e ->
       ShamosHoey.simplePolygonLineStrings EventQueue rings = Throw e).
Proof.
  split; [reflexivity|].
  split; [|split; [|split; [|split]]].
  - intros this segment u rest s su Hx Htree Hs Hsu.
    unfold SweepLine.remove. apply M_bind_Throw.
    unfold SweepLine.tree_remove. rewrite Htree. simpl.
    unfold SweepLine.bound_compare. rewrite Hs, Hsu. simpl.
    unfold SegmentComparator.compare. rewrite Hx. reflexivity.
  - intros event rest this e Ht Hadd. simpl. rewrite Ht.
    by apply M_bind_Throw.
  - intros event rest this e Ht Hfind. simpl. rewrite Ht.
    by apply M_bind_Throw.
  - intros event rest this segment s e Ht Hfind Hs Hint Hrem. simpl. rewrite Ht.
    rewrite (M_bind_step _ _ _ _ _ Hfind).
    assert (Hd : SweepLine.deref segment this = Ok (s, this)).
    { unfold SweepLine.deref. rewrite Hs. reflexivity. }
    rewrite (M_bind_step _ _ _ _ _ Hd).
    rewrite (M_bind_step _ _ _ _ _ Hint).
    by apply M_bind_Throw.
  - intros EventQueue rings ringCopies e Hne Hchecked Hsweep.
    unfold ShamosHoey.simplePolygonLineStrings. rewrite Hchecked. simpl.
    destruct rings; [done|]. simpl. rewrite Hsweep. reflexivity.
Qed.

(** A sweep line that holds two segments of the square in its tree while
    its comparator has no x: removing the segment of edge 3 has to compare,
    and the sweep of its Right event throws. *)
Lemma compare_unset_throws_witness :
  let this := SweepLine.set_x None (squareAfter 2) in
  let event := mkEvent 3 0 (mkPoint 0 4) Right in
  SweepLine.remove 1 this = Throw (SFException "X value not set")
  /\ ShamosHoey.sweep [event] this = Throw (SFException "X value not set").
Proof.
  intros this event.
  destruct (compare_unset_throws (H := constGeometryUtils true false))
    as (_ & Hremove & _ & _ & Hsweep & _).
  assert (Hthrows : SweepLine.remove 1 this
                    = Throw (SFException "X value not set")).
  { apply (Hremove this 1 0 [1]
             (mkSegment 3 0 (mkPoint 0 0) (mkPoint 0 4) None (Some 0))
             (mkSegment 0 0 (mkPoint 0 0) (mkPoint 4 0) (Some 1) None)).
    all: vm_compute; reflexivity. }
  split; [exact Hthrows|].
  apply (Hsweep event [] this 1
           (mkSegment 3 0 (mkPoint 0 0) (mkPoint 0 4) None (Some 0))).
  1-4: vm_compute; reflexivity.
  exact Hthrows.
Defined.

(** ** Event queues *)

Lemma insert_event_Permutation e queue : insert_event e queue ≡ₚ e :: queue.
Proof.
  induction queue as [|e' rest IH]; simpl; [done|].
  destruct (xyOrder (event_point e) (event_point e') <=? 0)%Z; [done|].
  rewrite IH. apply Permutation_swap.
Qed.

Lemma stableEventQueue_Permutation rings :
  stableEventQueue rings ≡ₚ allEvents rings.
Proof.
  unfold stableEventQueue.
  induction (allEvents rings) as [|e l IH]; simpl; [done|].
  by rewrite insert_event_Permutation, IH.
Qed.

Lemma every_order_sound ringCopies accept queue :
  every_order ringCopies accept = true ->
  EventQueue_spec queue ringCopies ->
  accept (sweepResult ringCopies queue) = true.
Proof.
  intros Hall [Hperm Hsorted]. unfold every_order in Hall.
  rewrite forallb_forall in Hall. specialize (Hall queue).
  rewrite Hsorted in Hall. apply Hall.
  apply list_elem_of_In, permutations_Permutation. by symmetry.
Qed.

Lemma is_result_true expected r : is_result expected r = true -> r = Ok expected.
Proof.
  destruct r as [b|e]; simpl; [|discriminate].
  intros Hb. apply Bool.eqb_prop in Hb. by subst.
Qed.

(** With a single ring no hole is checked: the driver drops the closing
    point, rejects a ring of fewer than three points and otherwise sweeps. *)
Lemma simplePolygonLineStrings_single `{GeometryUtils}
    (EventQueue : list LineString -> list Event) (ring_ : LineString) :
  ShamosHoey.simplePolygonLineStrings EventQueue [ring_]
  = let ringCopies := [mkLineString (ShamosHoey.dropClosingPoint (points ring_))] in
    if (length (ShamosHoey.dropClosingPoint (points ring_)) <? 3)%nat
    then Ok false
    else sweepResult ringCopies (EventQueue ringCopies).
Proof.
  unfold ShamosHoey.simplePolygonLineStrings. simpl.
  destruct (length (ShamosHoey.dropClosingPoint (points ring_)) <? 3)%nat;
    reflexivity.
Qed.

(** ** The two scenario rings *)

(** C1: for the bowtie ring [(0,0),(4,4),(4,0),(0,4),(0,0)] the check returns
    [false], under every event queue that yields the ring's events sorted by
    x, then y. *)
Theorem bowtie_not_simple `{GeometryUtils}
    (EventQueue : list LineString -> list Event) :
  EventQueue_spec (EventQueue bowtieCopies) bowtieCopies ->
  ShamosHoey.simplePolygonRingPoints EventQueue [bowtie] = Ok false.
Proof.
  intros Hspec. unfold ShamosHoey.simplePolygonRingPoints. simpl map.
  rewrite simplePolygonLineStrings_single.
  change (points (createFromPoints bowtie)) with bowtie.
  change (length (ShamosHoey.dropClosingPoint bowtie) <? 3)%nat with false.
  cbv zeta. cbv iota.
  apply is_result_true.
  apply (every_order_sound bowtieCopies (is_result false)); [|exact Hspec].
  vm_compute. reflexivity.
Qed.

Lemma bowtie_not_simple_witness :
  EventQueue_spec (stableEventQueue bowtieCopies) bowtieCopies
  /\ ShamosHoey.simplePolygonRingPoints (GU := constGeometryUtils true false)
       stableEventQueue [bowtie] = Ok false.
Proof.
  assert (Hspec : EventQueue_spec (stableEventQueue bowtieCopies) bowtieCopies).
  { split; [apply stableEventQueue_Permutation | vm_compute; reflexivity]. }
  split; [exact Hspec|].
  apply (bowtie_not_simple (H := constGeometryUtils true false)
           stableEventQueue Hspec).
Defined.

(** C2: for the square ring [(0,0),(4,0),(4,4),(0,4),(0,0)], which has two
    vertical edges, the check returns [true], under every event queue that
    yields the ring's events sorted by x, then y. *)
Theorem square_simple `{GeometryUtils}
    (EventQueue : list LineString -> list Event) :
  EventQueue_spec (EventQueue squareCopies) squareCopies ->
  ShamosHoey.simplePolygonRingPoints EventQueue [square] = Ok true.
Proof.
  intros Hspec. unfold ShamosHoey.simplePolygonRingPoints. simpl map.
  rewrite simplePolygonLineStrings_single.
  change (points (createFromPoints square)) with square.
  change (length (ShamosHoey.dropClosingPoint square) <? 3)%nat with false.
  cbv zeta. cbv iota.
  apply is_result_true.
  apply (every_order_sound squareCopies (is_result true)); [|exact Hspec].
  vm_compute. reflexivity.
Qed.

Lemma square_simple_witness :
  EventQueue_spec (stableEventQueue squareCopies) squareCopies
  /\ ShamosHoey.simplePolygonRingPoints (GU := constGeometryUtils true false)
       stableEventQueue [square] = Ok true.
Proof.
  assert (Hspec : EventQueue_spec (stableEventQueue squareCopies) squareCopies).
  { split; [apply stableEventQueue_Permutation | vm_compute; reflexivity]. }
  split; [exact Hspec|].
  apply (square_simple (H := constGeometryUtils true false)
           stableEventQueue Hspec).
Defined.

(** ** The ring preprocessor *)

Lemma length_removelast {A} (l : list A) : length (removelast l) = pred (length l).
Proof.
  induction l as [|a [|b l] IH]; [done..|].
  change (removelast (a :: b :: l)) with (a :: removelast (b :: l)).
  simpl length in *. by rewrite IH.
Qed.

Lemma dropClosingPoint_length_le ps :
  length (ShamosHoey.dropClosingPoint ps) <= length ps.
Proof.
  unfold ShamosHoey.dropClosingPoint.
  destruct (3 <=? length ps)%nat; [|done].
  destruct (head ps), (last ps); try done.
  destruct (point_equal _ _); [|done].
  rewrite length_removelast. lia.
Qed.

Lemma dropClosingPoint_short ps :
  length (closingPointDropped ps) < 3 ->
  length (ShamosHoey.dropClosingPoint ps) < 3.
Proof.
  unfold ShamosHoey.dropClosingPoint, closingPointDropped.
  destruct (Nat.leb_spec 3 (length ps)); [done|].
  intros _. lia.
Qed.

Section preprocessor.
Context `{GeometryUtils}.

Lemma holesApart_total firstPoint ringCopyPoints holes :
  (forall hole, hole ∈ holes -> points hole <> []) ->
  exists apart, ShamosHoey.holesApart firstPoint ringCopyPoints holes = Ok apart.
Proof.
  induction holes as [|hole rest IH]; intros Hne; simpl; [eauto|].
  destruct (pointInPolygonRingPoints firstPoint (points hole)); [eauto|].
  destruct (points hole) as [|hole0 ?] eqn:Hps.
  { exfalso. apply (Hne hole); [left | done]. }
  simpl. destruct (pointInPolygonRingPoints hole0 ringCopyPoints); [eauto|].
  apply IH. intros h Hh. apply Hne. by right.
Qed.

(** The loop over the rings leaves through a [break], and without an
    exception, as soon as a ring still to be visited is refused. *)
Lemma checkRings_refuses rings :
  forall todo i ringCopies,
    drop i rings = todo ->
    (forall r, r ∈ take i rings -> points r <> []) ->
    (exists k r, todo !! k = Some r /\ refused rings (i + k) r) ->
    exists ringCopies',
      ShamosHoey.checkRings rings i todo ringCopies = Ok (false, ringCopies').
Proof.
  induction todo as [|ring_ todo' IH]; intros i ringCopies Hdrop Hprev (k & r & Hk & Hr).
  { by rewrite lookup_nil in Hk. }
  assert (Hi : rings !! i = Some ring_).
  { rewrite <- (Nat.add_0_r i), <- lookup_drop, Hdrop. done. }
  assert (Hnext : drop (S i) rings = todo').
  { change (S i) with (1 + i). rewrite Nat.add_comm, <- drop_drop, Hdrop. done. }
  simpl.
  destruct (Nat.ltb_spec (length (ShamosHoey.dropClosingPoint (points ring_))) 3)
    as [|Hlen]; [eauto|].
  assert (Hprev' : forall r', r' ∈ take (S i) rings -> points r' <> []).
  { intros r'. rewrite (take_S_r _ _ _ Hi), elem_of_app, list_elem_of_singleton.
    intros [?| ->]; [by apply Hprev|].
    pose proof (dropClosingPoint_length_le (points ring_)).
    destruct (points ring_); simpl in *; [lia | done]. }
  assert (Hrest : 0 < k -> exists k' r', todo' !! k' = Some r'
                                         /\ refused rings (S i + k') r').
  { intros Hpos. destruct k as [|k']; [lia|]. exists k', r. split; [done|].
    by replace (S i + k') with (i + S k') by lia. }
  destruct (Nat.ltb_spec 0 i) as [Hpos|Hzero].
  - destruct (ShamosHoey.dropClosingPoint (points ring_)) as [|firstPoint ?] eqn:Hcopy;
      [simpl in Hlen; lia|].
    destruct (rings !! 0) as [ring0|] eqn:H0; cycle 1.
    { apply lookup_ge_None in H0. apply lookup_lt_Some in Hi. lia. }
    simpl.
    destruct (pointInPolygonRing firstPoint ring0) eqn:Hin; simpl; [|eauto].
    destruct (holesApart_total firstPoint (firstPoint :: l)
                (take (i - 1) (drop 1 rings))) as [apart Happart].
    { intros hole Hhole. apply Hprev.
      rewrite take_drop_commute in Hhole.
      replace (1 + (i - 1)) with i in Hhole by lia.
      by apply (subseteq_drop 1). }
    rewrite Happart. simpl. destruct apart; [|eauto].
    apply IH; [done..|].
    destruct k as [|k']; [|apply Hrest; lia].
    simpl in Hk. injection Hk as <-.
    destruct Hr as [Hshort | (_ & fp & r0 & Hfp & Hr0 & Hout)].
    + rewrite Hcopy in Hshort. lia.
    + rewrite Hcopy in Hfp. simpl in Hfp. congruence.
  - apply IH; [done..|].
    destruct k as [|k']; [|apply Hrest; lia].
    simpl in Hk. injection Hk as <-.
    destruct Hr as [Hshort | (Hpos & _)]; lia.
Qed.

Lemma simplePolygonLineStrings_refuses
    (EventQueue : list LineString -> list Event) rings k r :
  rings !! k = Some r ->
  refused rings k r ->
  ShamosHoey.simplePolygonLineStrings EventQueue rings = Ok false.
Proof.
  intros Hk Hr. unfold ShamosHoey.simplePolygonLineStrings.
  destruct (checkRings_refuses rings rings 0 []) as [ringCopies' ->].
  - done.
  - intros r'. rewrite take_0. by intros ?%elem_of_nil.
  - by exists k, r.
  - simpl. by rewrite andb_false_r.
Qed.

End preprocessor.

(** C5: if some ring of the list has fewer than three points left once a
    closing point equal to the first point is dropped, the check returns
    [false]; it does not throw. *)
Theorem too_few_points_not_simple `{GeometryUtils}
    (EventQueue : list LineString -> list Event) (rings : list LineString) :
  (exists ring_, ring_ ∈ rings /\ length (closingPointDropped (points ring_)) < 3) ->
  ShamosHoey.simplePolygonLineStrings EventQueue rings = Ok false.
Proof.
  intros (ring_ & [k Hk]%list_elem_of_lookup & Hshort).
  apply (simplePolygonLineStrings_refuses EventQueue rings k ring_ Hk).
  left. by apply dropClosingPoint_short.
Qed.

(** The two-point ring [(0,0),(1,1)]. *)
Lemma too_few_points_not_simple_witness :
  ShamosHoey.simplePolygonRingPoints (GU := constGeometryUtils true false)
    stableEventQueue [[mkPoint 0 0; mkPoint 1 1]] = Ok false.
Proof.
  apply (too_few_points_not_simple (H := constGeometryUtils true false)).
  exists (mkLineString [mkPoint 0 0; mkPoint 1 1]). split.
  - apply list_elem_of_here.
  - vm_compute. lia.
Defined.

(** C6: if the first point of some hole ring (index above 0), taken after
    closing-point removal, is not inside ring 0 according to the point-in-ring
    primitive, the check returns [false], whatever the hole looks like. *)
Theorem hole_outside_not_simple `{GeometryUtils}
    (EventQueue : list LineString -> list Event) (rings : list LineString)
    (i : nat) (hole ring0 : LineString) (firstPoint : Point) :
  0 < i ->
  rings !! i = Some hole ->
  rings !! 0 = Some ring0 ->
  ShamosHoey.dropClosingPoint (points hole) !! 0 = Some firstPoint ->
  pointInPolygonRing firstPoint ring0 = false ->
  ShamosHoey.simplePolygonLineStrings EventQueue rings = Ok false.
Proof.
  intros Hpos Hi H0 Hfirst Hout.
  apply (simplePolygonLineStrings_refuses EventQueue rings i hole Hi).
  right. split; [done|]. by exists firstPoint, ring0.
Qed.

(** Exterior [(0,0),(1,0),(1,1),(0,1)] and hole [(5,5),(6,5),(6,6)], with a
    primitive that finds the hole's first point outside. *)
Lemma hole_outside_not_simple_witness :
  ShamosHoey.simplePolygonRingPoints (GU := constGeometryUtils false false)
    stableEventQueue
    [[mkPoint 0 0; mkPoint 1 0; mkPoint 1 1; mkPoint 0 1];
     [mkPoint 5 5; mkPoint 6 5; mkPoint 6 6]] = Ok false.
Proof.
  apply (hole_outside_not_simple (H := constGeometryUtils false false)
           stableEventQueue _ 1
           (mkLineString [mkPoint 5 5; mkPoint 6 5; mkPoint 6 6])
           (mkLineString [mkPoint 0 0; mkPoint 1 0; mkPoint 1 1; mkPoint 0 1])
           (mkPoint 5 5)).
  - lia.
  - reflexivity.
  - reflexivity.
  - vm_compute. reflexivity.
  - reflexivity.
Defined.

(** ** Appending a closing point *)

Lemma dropClosingPoint_snoc R first :
  head R = Some first ->
  point_equal first first = true ->
  2 <= length R ->
  ShamosHoey.dropClosingPoint (R ++ [first]) = R.
Proof.
  intros Hhead Heq Hlen. unfold ShamosHoey.dropClosingPoint.
  rewrite length_app. simpl length.
  destruct (Nat.leb_spec 3 (length R + 1)); [|lia].
  rewrite last_snoc.
  destruct R as [|p R']; [done|]. simpl in Hhead. injection Hhead as ->.
  replace (head ((first :: R') ++ [first])) with (Some first) by reflexivity.
  rewrite Heq.
  apply (removelast_last (first :: R') first).
Qed.

Lemma dropClosingPoint_open R first :
  head R = Some first ->
  (3 <= length R ->
   forall final, last R = Some final -> point_equal first final = false) ->
  ShamosHoey.dropClosingPoint R = R.
Proof.
  intros Hhead Hopen. unfold ShamosHoey.dropClosingPoint.
  destruct (Nat.leb_spec 3 (length R)) as [Hlen|]; [|done].
  rewrite Hhead. destruct (last R) as [final|]; [|done].
  by rewrite (Hopen Hlen final).
Qed.

(** C7, as amended: for a ring whose first point is equal to itself on x and
    y and which, when it has three points or more, does not already end with
    a point equal to its first, the check on the ring and the check on the
    ring with its first point appended return the same. *)
Theorem closing_point_appended `{GeometryUtils}
    (EventQueue : list LineString -> list Event) (R : list Point) (first : Point) :
  head R = Some first ->
  point_equal first first = true ->
  (3 <= length R ->
   forall final, last R = Some final -> point_equal first final = false) ->
  ShamosHoey.simplePolygonRingPoints EventQueue [R]
  = ShamosHoey.simplePolygonRingPoints EventQueue [R ++ [first]].
Proof.
  intros Hhead Heq Hopen. unfold ShamosHoey.simplePolygonRingPoints. simpl map.
  rewrite !simplePolygonLineStrings_single.
  change (points (createFromPoints ?ps)) with ps.
  rewrite (dropClosingPoint_open R first Hhead Hopen).
  destruct (decide (2 <= length R)) as [Hlen|Hlen].
  - by rewrite (dropClosingPoint_snoc R first Hhead Heq Hlen).
  - cbv zeta.
    destruct (Nat.ltb_spec (length R) 3); [|lia].
    pose proof (dropClosingPoint_length_le (R ++ [first])) as Hle.
    rewrite length_app in Hle. simpl length in Hle.
    destruct (Nat.ltb_spec (length (ShamosHoey.dropClosingPoint (R ++ [first]))) 3);
      [done | lia].
Qed.

(** The open triangle [(0,0),(3,0),(0,3)] and the same ring closed. *)
Lemma closing_point_appended_witness :
  ShamosHoey.simplePolygonRingPoints (GU := constGeometryUtils true false)
    stableEventQueue [[mkPoint 0 0; mkPoint 3 0; mkPoint 0 3]]
  = ShamosHoey.simplePolygonRingPoints (GU := constGeometryUtils true false)
      stableEventQueue [closedTriangle].
Proof.
  apply (closing_point_appended (H := constGeometryUtils true false)
           stableEventQueue [mkPoint 0 0; mkPoint 3 0; mkPoint 0 3] (mkPoint 0 0)).
  - reflexivity.
  - vm_compute. reflexivity.
  - intros _ final Hfinal. injection Hfinal as <-. vm_compute. reflexivity.
Defined.

(** A ring that is already closed: [closedTriangle] is simple, and with its
    first point appended once more it is not, under every event queue that
    section 4.2 allows. *)
Lemma closedTriangle_appended `{GeometryUtils}
    (EventQueue : list LineString -> list Event) :
  EventQueue_spec (EventQueue closedTriangleCopies) closedTriangleCopies ->
  ShamosHoey.simplePolygonRingPoints EventQueue
    [closedTriangle ++ [mkPoint 0 0]] <> Ok true.
Proof.
  intros Hspec.
  change (ShamosHoey.simplePolygonLineStrings EventQueue
            [createFromPoints (closedTriangle ++ [mkPoint 0 0])] <> Ok true).
  rewrite simplePolygonLineStrings_single.
  change (sweepResult closedTriangleCopies (EventQueue closedTriangleCopies)
          <> Ok true).
  intros Htrue.
  assert (Hall : every_order closedTriangleCopies
                   (fun r => negb (is_result true r)) = true)
    by (vm_compute; reflexivity).
  pose proof (every_order_sound _ _ _ Hall Hspec) as Hnot.
  simpl in Hnot. rewrite Htrue in Hnot. discriminate.
Qed.

Lemma closedTriangle_simple `{GeometryUtils}
    (EventQueue : list LineString -> list Event) :
  EventQueue_spec (EventQueue triangleCopies) triangleCopies ->
  ShamosHoey.simplePolygonRingPoints EventQueue [closedTriangle] = Ok true.
Proof.
  intros Hspec.
  change (ShamosHoey.simplePolygonLineStrings EventQueue
            [createFromPoints closedTriangle] = Ok true).
  rewrite simplePolygonLineStrings_single.
  change (sweepResult triangleCopies (EventQueue triangleCopies) = Ok true).
  apply is_result_true.
  apply (every_order_sound triangleCopies (is_result true)); [|exact Hspec].
  vm_compute. reflexivity.
Qed.

(** No event queue that meets section 4.2 on these two rings makes the
    property hold. *)
Lemma no_queue_closure_idempotent `{GeometryUtils}
    (EventQueue : list LineString -> list Event) :
  EventQueue_spec (EventQueue triangleCopies) triangleCopies ->
  EventQueue_spec (EventQueue closedTriangleCopies) closedTriangleCopies ->
  ~ closure_idempotent EventQueue.
Proof.
  intros Hopen Hclosed Hclaim.
  specialize (Hclaim closedTriangle (mkPoint 0 0) eq_refl).
  rewrite (closedTriangle_simple EventQueue Hopen) in Hclaim.
  by apply (closedTriangle_appended EventQueue Hclosed).
Qed.

(** C7, as stated, fails at the closed triangle [(0,0),(3,0),(0,3),(0,0)]:
    the check returns [true] on it and [false] once (0,0) is appended. *)
Lemma closure_idempotent_fails :
  ~ closure_idempotent (H := constGeometryUtils true false) stableEventQueue.
Proof.
  intros Hclaim.
  specialize (Hclaim closedTriangle (mkPoint 0 0) eq_refl).
  vm_compute in Hclaim. discriminate.
Qed.

(** ** Removal from the sweep line *)

(** C3, at the square: the fourth event is the Right event of edge 3, whose
    segment (location 1) has the segment of edge 2 (location 2) below it and
    nothing above. The intersection test is false and [remove] returns; the
    segment has left the tree, yet the [above] field of the segment below
    still refers to it and the registry still maps (0,3) to it. *)
Theorem remove_skips_splice :
  let this := squareAfter 3 in
  let event := mkEvent 3 0 (mkPoint 0 4) Right in
  stableEventQueue squareCopies !! 3 = Some event
  /\ SweepLine.find event this = Ok (1, this)
  /\ SweepLine._tree this = [0; 2; 1]
  /\ above <$> SweepLine.heap this !! 1 = Some None
  /\ below <$> SweepLine.heap this !! 1 = Some (Some 2)
  /\ SweepLine.intersect None (Some 2) this = Ok (false, this)
  /\ SweepLine.remove 1 this = Ok (tt, squareRemoved)
  /\ SweepLine._tree squareRemoved = [0; 2]
  /\ above <$> SweepLine.heap squareRemoved !! 2 = Some (Some 1)
  /\ SweepLine._segments squareRemoved !! 0 ≫= (.!! 3) = Some 1.
Proof. cbv zeta. repeat apply conj; vm_compute; reflexivity. Qed.

Lemma bound_compare_zero this l1 l2 :
  SweepLine.bound_compare this l1 l2 = Ok 0%Z ->
  exists k, key this l1 = Some k /\ key this l2 = Some k.
Proof.
  unfold SweepLine.bound_compare, key. intros Hcmp.
  apply result_bind_Ok in Hcmp as (s1 & H1 & Hcmp).
  apply result_bind_Ok in Hcmp as (s2 & H2 & Hcmp).
  destruct (SweepLine.heap this !! l1) as [s1'|]; [|discriminate].
  destruct (SweepLine.heap this !! l2) as [s2'|]; [|discriminate].
  injection H1 as ->. injection H2 as ->.
  unfold SegmentComparator.compare in Hcmp.
  destruct (SegmentComparator._x _) as [x|]; [|discriminate].
  injection Hcmp as Hcmp.
  repeat match type of Hcmp with
         | (if ?b then _ else _) = _ => destruct b eqn:?; [discriminate|]
         end.
  exists (ring s1, edge s1). split; [done|]. simpl. do 2 f_equal.
  all: repeat match goal with
              | Hlt : (_ <? _)%nat = false |- _ => apply Nat.ltb_ge in Hlt
              end; lia.
Qed.

Lemma tree_remove_true {A} (compare : A -> A -> result Z) v tree tree' :
  ExtendedRedBlackTree.remove compare v tree = Ok (true, tree') ->
  exists before u after,
    tree = before ++ u :: after /\ tree' = before ++ after
    /\ compare v u = Ok 0%Z.
Proof.
  revert tree'. induction tree as [|u rest IH]; intros tree' Hremove;
    [discriminate|].
  simpl in Hremove.
  apply result_bind_Ok in Hremove as (c & Hc & Hremove).
  destruct (c <? 0)%Z; [discriminate|].
  destruct (Z.eqb_spec c 0) as [->|_].
  - injection Hremove as <-. by exists [], u, rest.
  - apply result_bind_Ok in Hremove as ([removed rest'] & Hrest & Hremove).
    injection Hremove as -> <-.
    destruct (IH rest' Hrest) as (before & u' & after & -> & -> & Hzero).
    by exists (u :: before), u', after.
Qed.

(** In a tree that holds at most one segment per edge, the second removal
    attempt of [remove] cannot succeed: [remove] changes no [above] or
    [below] field and no registry entry. *)
Lemma remove_changes_no_link this segment this' :
  NoDup (key this <$> SweepLine._tree this) ->
  SweepLine.remove segment this = Ok (tt, this') ->
  SweepLine.heap this' = SweepLine.heap this
  /\ SweepLine._segments this' = SweepLine._segments this.
Proof.
  intros Hkeys Hremove. unfold SweepLine.remove in Hremove.
  apply M_bind_Ok in Hremove as (removed & t1 & Hfirst & Hremove).
  unfold SweepLine.tree_remove in Hfirst.
  apply result_bind_Ok in Hfirst as ([removed1 tree1] & Hfirst & Heq).
  injection Heq as <- <-.
  destruct removed1; simpl in Hremove; cycle 1.
  { munfold. simpl in Hremove. injection Hremove as <-. done. }
  apply tree_remove_true in Hfirst
    as (before & u & after & Htree & -> & (k & Hk & Hku)%bound_compare_zero).
  apply M_bind_Ok in Hremove as (removed' & t3 & Hretry & Hremove).
  apply M_bind_Ok in Hretry as (s1 & t1' & Hderef & Hretry).
  unfold SweepLine.deref in Hderef. simpl in Hderef.
  destruct (SweepLine.heap this !! segment) as [s|]; [|discriminate].
  injection Hderef as <- <-.
  apply M_bind_Ok in Hretry as ([] & t2 & Hset & Hretry).
  injection Hset as <-.
  unfold SweepLine.tree_remove in Hretry.
  apply result_bind_Ok in Hretry as ([removed2 tree2] & Hsecond & Heq).
  injection Heq as <- <-.
  destruct removed2; simpl in Hremove; cycle 1.
  { munfold. simpl in Hremove. injection Hremove as <-. done. }
  exfalso. simpl in Hsecond.
  apply tree_remove_true in Hsecond
    as (before' & u' & after' & Htree' & _ & (k' & Hk' & Hku')%bound_compare_zero).
  change (key _ segment) with (key this segment) in Hk'.
  change (key _ u') with (key this u') in Hku'.
  assert (k' = k) as -> by congruence.
  rewrite Htree, fmap_app, fmap_cons in Hkeys.
  apply NoDup_app in Hkeys as (_ & Hfront & Hback).
  apply NoDup_cons in Hback as [Hback _].
  assert (Hin : u' ∈ before ++ after).
  { rewrite Htree'. set_solver. }
  apply elem_of_app in Hin as [Hin|Hin].
  - apply (Hfront (key this u')); [by apply list_elem_of_fmap_2|].
    rewrite Hku', <- Hku. by left.
  - apply Hback. rewrite Hku, <- Hku'. by apply list_elem_of_fmap_2.
Qed.

(** ** The comparator's x at the tree calls *)







(** * Further properties of the code *)

(** ** The order of IEEE doubles *)

Lemma SFcompare_antisym x y :
  SFcompare y x = option_map CompOpp (SFcompare x y).
Proof.
  destruct x as [s1|s1| |s1 m1 e1], y as [s2|s2| |s2 m2 e2]; simpl;
    try destruct s1; try destruct s2; try reflexivity.
  all: rewrite (Z.compare_antisym e2 e1).
  all: destruct (e2 ?= e1)%Z; simpl; try reflexivity.
  all: change (Pos.compare_cont Eq ?a ?b) with (Pos.compare a b).
  all: rewrite (Pos.compare_antisym m2 m1).
  all: destruct (m2 ?= m1)%positive; reflexivity.
Qed.

Lemma SFcompare_Lt_trans x y z :
  SFcompare x y = Some Lt -> SFcompare y z = Some Lt -> SFcompare x z = Some Lt.
Proof.
  destruct x as [s1|s1| |s1 m1 e1], y as [s2|s2| |s2 m2 e2],
    z as [s3|s3| |s3 m3 e3]; simpl;
    try destruct s1; try destruct s2; try destruct s3;
    try discriminate; try reflexivity.
  all: change (Pos.compare_cont Eq ?a ?b) with (Pos.compare a b).
  all: destruct (Z.compare_spec e1 e2), (Z.compare_spec e2 e3),
         (Z.compare_spec e1 e3); subst; try discriminate; try lia;
         try reflexivity.
  all: destruct (Pos.compare_spec m1 m2), (Pos.compare_spec m2 m3),
         (Pos.compare_spec m1 m3); subst; try discriminate; try lia;
         try reflexivity.
Qed.

Lemma SFcompare_diag x : SFcompare x x = Some Eq \/ SFcompare x x = None.
Proof.
  destruct x as [s|s| |s m e]; simpl; try destruct s; auto.
  all: rewrite Z.compare_refl.
  all: change (Pos.compare_cont Eq ?a ?b) with (Pos.compare a b).
  all: rewrite Pos.compare_refl; auto.
Qed.

Lemma ltb_irrefl (a : number) : PrimFloat.ltb a a = false.
Proof.
  rewrite ltb_spec. unfold SFltb.
  destruct (SFcompare_diag (Prim2SF a)) as [-> | ->]; reflexivity.
Qed.

Lemma ltb_asym (a b : number) :
  PrimFloat.ltb a b = true -> PrimFloat.ltb b a = false.
Proof.
  rewrite !ltb_spec. unfold SFltb.
  rewrite (SFcompare_antisym (Prim2SF a) (Prim2SF b)).
  destruct (SFcompare (Prim2SF a) (Prim2SF b)) as [[]|]; simpl; congruence.
Qed.

Lemma ltb_trans (a b c : number) :
  PrimFloat.ltb a b = true -> PrimFloat.ltb b c = true ->
  PrimFloat.ltb a c = true.
Proof.
  rewrite !ltb_spec. unfold SFltb.
  destruct (SFcompare (Prim2SF a) (Prim2SF b)) as [[]|] eqn:Hab; try discriminate.
  destruct (SFcompare (Prim2SF b) (Prim2SF c)) as [[]|] eqn:Hbc; try discriminate.
  intros _ _. by rewrite (SFcompare_Lt_trans _ _ _ Hab Hbc).
Qed.

(** ** What [add] does *)

Lemma createSegment_inv event this segment this' :
  SweepLine.createSegment event this = Ok (segment, this') ->
  exists ring_ point1 point2 s0,
    SweepLine._rings this !! event_ring event = Some ring_
    /\ points ring_ !! event_edge event = Some point1
    /\ points ring_ !! ((event_edge event + 1) mod length (points ring_))
       = Some point2
    /\ s0 = (if (xyOrder point1 point2 <? 0)%Z
             then mkSegment (event_edge event) (event_ring event)
                    point1 point2 None None
             else mkSegment (event_edge event) (event_ring event)
                    point2 point1 None None)
    /\ segment = length (SweepLine.heap this)
    /\ this' = SweepLine.set_heap (SweepLine.heap this ++ [s0]) this.
Proof.
  unfold SweepLine.createSegment. intros Hcall.
  destruct (SweepLine._rings this !! event_ring event) as [ring_|] eqn:Hring;
    [|discriminate].
  simpl in Hcall.
  destruct (points ring_ !! event_edge event) as [point1|] eqn:H1;
    [|discriminate].
  simpl in Hcall.
  destruct (points ring_ !! ((event_edge event + 1) mod length (points ring_)))
    as [point2|] eqn:H2; [|discriminate].
  simpl in Hcall. injection Hcall as <- <-.
  exists ring_, point1, point2.
  destruct (xyOrder point1 point2 <? 0)%Z; eexists;
    (split; [reflexivity|]); (split; [exact H1|]); (split; [exact H2|]);
    repeat split; reflexivity.
Qed.

(** [add], step by step: the segment is allocated, x is set, the tree
    inserts and finds, the neighbours are linked, the registry is written. *)
Lemma add_inv event this segment this' :
  SweepLine.add event this = Ok (segment, this') ->
  let x := Some (point_x (event_point event)) in
  exists s0 tree' current,
    SweepLine.createSegment event this
    = Ok (segment, SweepLine.set_heap (SweepLine.heap this ++ [s0]) this)
    /\ let ready := SweepLine.set_x x
                      (SweepLine.set_heap (SweepLine.heap this ++ [s0]) this) in
       ExtendedRedBlackTree.insert (SweepLine.bound_compare ready) segment
         (SweepLine._tree this) = Ok tree'
       /\ ExtendedRedBlackTree.findNode (SweepLine.bound_compare ready) segment
            tree' = Ok (Some current)
       /\ SweepLine._rings this' = SweepLine._rings this
       /\ SweepLine._comparator this' = SegmentComparator.mk x
       /\ SweepLine._tree this' = tree'
       /\ SweepLine.heap this'
          = linkPrevious segment
              (ExtendedRedBlackTree.getPredecessor tree' current)
              (linkNext segment (ExtendedRedBlackTree.getSuccessor tree' current)
                 (SweepLine.heap this ++ [s0]))
       /\ exists s, SweepLine.heap this' !! segment = Some s
                    /\ SweepLine._segments this'
                       = <[ring s := <[edge s := segment]>
                                       (default ∅ (SweepLine._segments this !! ring s))]>
                           (SweepLine._segments this).
Proof.
  intros Hadd x. unfold SweepLine.add in Hadd.
  apply M_bind_Ok in Hadd as (seg & t1 & Hcreate & Hadd).
  pose proof Hcreate as Hinv.
  apply createSegment_inv in Hinv as (? & ? & ? & s0 & _ & _ & _ & _ & _ & ->).
  apply M_bind_Ok in Hadd as ([] & t2 & Hset & Hadd).
  injection Hset as <-.
  apply M_bind_Ok in Hadd as ([] & t3 & Hinsert & Hadd).
  unfold SweepLine.tree_insert in Hinsert.
  apply result_bind_Ok in Hinsert as (tree' & Hinsert & Heq).
  injection Heq as <-.
  apply M_bind_Ok in Hadd as (current & t4 & Hfind & Hadd).
  unfold SweepLine.tree_findNode in Hfind.
  apply result_bind_Ok in Hfind as (node & Hfind & Heq).
  injection Heq as -> <-.
  destruct current as [current|]; [|discriminate].
  exists s0, tree', current.
  munfold. simpl in Hadd.
  destruct (ExtendedRedBlackTree.getSuccessor tree' current) as [n|],
    (ExtendedRedBlackTree.getPredecessor tree' current) as [p|];
    simpl in Hadd; unfold SweepLine.deref in Hadd; simpl in Hadd;
    match type of Hadd with
    | context [defined ?o _] => destruct o as [s|] eqn:Hs; simpl in Hadd
    end;
    try discriminate; injection Hadd as <- <-; simpl;
    (split; [exact Hcreate|]); repeat (split; [done|]);
    exists s; split; done.
Qed.

(** ** The point order and the comparator *)

Lemma xyOrder_opp (point1 point2 : Point) :
  xyOrder point2 point1 = (- xyOrder point1 point2)%Z.
Proof.
  unfold xyOrder.
  destruct (PrimFloat.ltb (point_x point2) (point_x point1)) eqn:Hx21.
  { by rewrite (ltb_asym _ _ Hx21). }
  destruct (PrimFloat.ltb (point_x point1) (point_x point2)) eqn:Hx12; [done|].
  destruct (PrimFloat.ltb (point_y point2) (point_y point1)) eqn:Hy21.
  { by rewrite (ltb_asym _ _ Hy21). }
  by destruct (PrimFloat.ltb (point_y point1) (point_y point2)).
Qed.

Lemma compare_diag (x : number) (segment : Segment) :
  SegmentComparator.compare (SegmentComparator.mk (Some x)) segment segment
  = Ok 0%Z.
Proof.
  unfold SegmentComparator.compare. simpl.
  by rewrite ltb_irrefl, !Nat.ltb_irrefl.
Qed.

(** X1: [xyOrder] is antisymmetric: exchanging its arguments negates the
    result, also when coordinates are NaN or infinite; a point compares
    equal to itself; the result is -1, 0 or 1. *)
Theorem xyOrder_antisym (point1 point2 : Point) :
  xyOrder point2 point1 = (- xyOrder point1 point2)%Z
  /\ xyOrder point1 point1 = 0%Z
  /\ (xyOrder point1 point2 = (-1)%Z \/ xyOrder point1 point2 = 0%Z
      \/ xyOrder point1 point2 = 1%Z).
Proof.
  split; [apply xyOrder_opp|]. unfold xyOrder. rewrite !ltb_irrefl.
  split; [done|].
  repeat match goal with
         | |- context [if ?b then _ else _] => destruct b
         end; auto.
Qed.

(** X2: with its x set, [compare] is antisymmetric (exchanging the segments
    negates the result) and a segment compares equal to itself, whatever the
    y values are, NaN included. *)
Theorem compare_antisym (x : number) (segment1 segment2 : Segment) :
  let this := SegmentComparator.mk (Some x) in
  (exists c, SegmentComparator.compare this segment1 segment2 = Ok c
             /\ SegmentComparator.compare this segment2 segment1 = Ok (- c)%Z)
  /\ SegmentComparator.compare this segment1 segment1 = Ok 0%Z.
Proof.
  intros this. unfold SegmentComparator.compare. simpl. split.
  - eexists. split; [reflexivity|]. f_equal.
    destruct (PrimFloat.ltb (yValueAtX segment1 x) (yValueAtX segment2 x)) eqn:H12.
    { by rewrite (ltb_asym _ _ H12). }
    destruct (PrimFloat.ltb (yValueAtX segment2 x) (yValueAtX segment1 x));
      [done|].
    destruct (Nat.ltb_spec (ring segment1) (ring segment2)),
      (Nat.ltb_spec (ring segment2) (ring segment1)); try lia; try done.
    destruct (Nat.ltb_spec (edge segment1) (edge segment2)),
      (Nat.ltb_spec (edge segment2) (edge segment1)); try lia; done.
  - apply compare_diag.
Qed.

(** X3: [compare] returns 0 only for two segments of the same ring and the
    same edge: segments of different edges are never equal in the tree, even
    where they have the same y. *)
Theorem compare_zero_same_edge (this : SegmentComparator.t)
    (segment1 segment2 : Segment) :
  SegmentComparator.compare this segment1 segment2 = Ok 0%Z ->
  ring segment1 = ring segment2 /\ edge segment1 = edge segment2.
Proof.
  unfold SegmentComparator.compare.
  destruct (SegmentComparator._x this) as [x|]; [|discriminate].
  intros Hcmp. injection Hcmp as Hcmp.
  repeat match type of Hcmp with
         | (if ?b then _ else _) = _ => destruct b eqn:?; [discriminate|]
         end.
  repeat match goal with
         | Hlt : (_ <? _)%nat = false |- _ => apply Nat.ltb_ge in Hlt
         end.
  lia.
Qed.

(** Edge 0 of the square and the touching edge 3, at x = 0: the y values
    are 0 and NaN, the edge numbers decide. Two segments of edge 0 compare
    equal. *)
Lemma compare_zero_same_edge_witness :
  let s := mkSegment 0 0 (mkPoint 0 0) (mkPoint 4 0) None None in
  SegmentComparator.compare (SegmentComparator.mk (Some 0%float)) s
    (with_above (Some 1) s) = Ok 0%Z
  /\ ring s = ring (with_above (Some 1) s)
  /\ edge s = edge (with_above (Some 1) s).
Proof.
  intros s. split; [vm_compute; reflexivity|].
  apply (compare_zero_same_edge (SegmentComparator.mk (Some 0%float))).
  vm_compute. reflexivity.
Defined.

(** ** Intersection is symmetric *)

Lemma intersect_reads a b this hit this' :
  SweepLine.intersect a b this = Ok (hit, this') -> this' = this.
Proof.
  destruct a as [l1|], b as [l2|]; unfold SweepLine.intersect, SweepLine.deref;
    munfold; simpl; try (intros [= _ <-]; done).
  destruct (SweepLine.heap this !! l1) as [s1|]; [|discriminate]. simpl.
  destruct (SweepLine.heap this !! l2) as [s2|]; [|discriminate]. simpl.
  destruct (ring s1 =? ring s2)%nat; simpl.
  - destruct (SweepLine._rings this !! ring s1) as [ring_|]; [|discriminate].
    simpl.
    repeat match goal with
           | |- context [if ?b then _ else _] => destruct b
           end; intros [= _ <-]; done.
  - repeat match goal with
           | |- context [if ?b then _ else _] => destruct b
           end; intros [= _ <-]; done.
Qed.

(** X4: [intersect] does not depend on the order of its two arguments,
    neither in its result nor in what it throws, and it leaves the sweep line
    as it is. *)
Theorem intersect_symmetric (segment1 segment2 : option loc) (this : SweepLine.t) :
  SweepLine.intersect segment1 segment2 this
  = SweepLine.intersect segment2 segment1 this
  /\ (forall hit this', SweepLine.intersect segment1 segment2 this = Ok (hit, this')
                        -> this' = this).
Proof.
  split; [|apply intersect_reads].
  destruct segment1 as [l1|], segment2 as [l2|]; try reflexivity.
  unfold SweepLine.intersect, SweepLine.deref. munfold. simpl.
  destruct (SweepLine.heap this !! l1) as [s1|] eqn:H1; simpl;
    destruct (SweepLine.heap this !! l2) as [s2|] eqn:H2; simpl;
    rewrite ?H1; simpl; try reflexivity.
  rewrite (Nat.eqb_sym (ring s2) (ring s1)).
  destruct (Nat.eqb_spec (ring s1) (ring s2)) as [Hring|_]; simpl.
  - rewrite <- Hring.
    destruct (SweepLine._rings this !! ring s1) as [ring_|]; [|reflexivity].
    simpl.
    rewrite (bool_decide_ext (Some (edge s2) = SweepLine.js_rem (edge s1 + 1) (numPoints ring_))
               (SweepLine.js_rem (edge s1 + 1) (numPoints ring_) = Some (edge s2)))
      by (split; congruence).
    rewrite (bool_decide_ext (Some (edge s1) = SweepLine.js_rem (edge s2 + 1) (numPoints ring_))
               (SweepLine.js_rem (edge s2 + 1) (numPoints ring_) = Some (edge s1)))
      by (split; congruence).
    rewrite (orb_comm (bool_decide (SweepLine.js_rem (edge s2 + 1) _ = _))).
    destruct (bool_decide _ || bool_decide _); simpl; [reflexivity|].
    by destruct (PrimFloat.leb (isLeft s1 (leftPoint s2) * isLeft s1 (rightPoint s2)) 0),
      (PrimFloat.leb (isLeft s2 (leftPoint s1) * isLeft s2 (rightPoint s1)) 0).
  - by destruct (PrimFloat.leb (isLeft s1 (leftPoint s2) * isLeft s1 (rightPoint s2)) 0),
      (PrimFloat.leb (isLeft s2 (leftPoint s1) * isLeft s2 (rightPoint s1)) 0).
Qed.

(** ** Insertion into the tree, and the node found afterwards *)

Section tree_insertion.
Context {A : Type} (cmp : A -> A -> result Z).

Lemma insert_findNode v tree tree' node :
  ExtendedRedBlackTree.insert cmp v tree = Ok tree' ->
  ExtendedRedBlackTree.findNode cmp v tree' = Ok (Some node) ->
  tree' = tree
  \/ exists before after,
       tree = before ++ after /\ tree' = before ++ v :: after
       /\ node = length before.
Proof.
  revert tree' node.
  induction tree as [|u rest IH]; intros tree' node Hinsert Hfind.
  - injection Hinsert as <-. right. exists [], []. repeat split.
    simpl in Hfind. destruct (cmp v v) as [c|]; [|discriminate].
    simpl in Hfind. destruct (c <? 0)%Z; [discriminate|].
    destruct (c =? 0)%Z; [by injection Hfind as <-|discriminate].
  - simpl in Hinsert. destruct (cmp v u) as [c|] eqn:Hc; [|discriminate].
    simpl in Hinsert. destruct (c <? 0)%Z eqn:Hneg.
    + injection Hinsert as <-. right. exists [], (u :: rest). repeat split.
      simpl in Hfind. destruct (cmp v v) as [c0|]; [|discriminate].
      simpl in Hfind. destruct (c0 <? 0)%Z; [discriminate|].
      destruct (c0 =? 0)%Z; [by injection Hfind as <-|].
      rewrite Hc in Hfind. simpl in Hfind. rewrite Hneg in Hfind. discriminate.
    + destruct (c =? 0)%Z eqn:Hzero; [injection Hinsert as <-; by left|].
      destruct (ExtendedRedBlackTree.insert cmp v rest) as [rest'|] eqn:Hrest;
        [|discriminate].
      injection Hinsert as <-.
      simpl in Hfind. rewrite Hc in Hfind. simpl in Hfind.
      rewrite Hneg, Hzero in Hfind.
      destruct (ExtendedRedBlackTree.findNode cmp v rest') as [[node'|]|] eqn:Hfind';
        try discriminate.
      injection Hfind as <-.
      destruct (IH rest' node' eq_refl Hfind')
        as [-> | (before & after & -> & -> & ->)]; [by left|].
      right. by exists (u :: before), after.
Qed.

Lemma insert_total v tree :
  (forall u, u ∈ tree -> is_Ok (cmp v u) = true) ->
  exists tree', ExtendedRedBlackTree.insert cmp v tree = Ok tree'.
Proof.
  induction tree as [|u rest IH]; intros Hcmp; simpl; [eauto|].
  pose proof (Hcmp u (list_elem_of_here _ _)) as Hu.
  destruct (cmp v u) as [c|]; [|discriminate]. simpl.
  destruct (c <? 0)%Z; [eauto|]. destruct (c =? 0)%Z; [eauto|].
  destruct IH as [rest' ->]; [|simpl; eauto].
  intros w Hw. apply Hcmp. by right.
Qed.

Lemma insert_found v tree tree' :
  cmp v v = Ok 0%Z ->
  ExtendedRedBlackTree.insert cmp v tree = Ok tree' ->
  exists node, ExtendedRedBlackTree.findNode cmp v tree' = Ok (Some node).
Proof.
  intros Hvv. revert tree'.
  induction tree as [|u rest IH]; intros tree' Hinsert.
  - injection Hinsert as <-. simpl. rewrite Hvv. simpl. eauto.
  - simpl in Hinsert. destruct (cmp v u) as [c|] eqn:Hc; [|discriminate].
    simpl in Hinsert. destruct (c <? 0)%Z eqn:Hneg.
    + injection Hinsert as <-. simpl. rewrite Hvv. simpl. eauto.
    + destruct (c =? 0)%Z eqn:Hzero.
      * injection Hinsert as <-. simpl. rewrite Hc. simpl.
        rewrite Hneg, Hzero. eauto.
      * destruct (ExtendedRedBlackTree.insert cmp v rest) as [rest'|] eqn:Hrest;
          [|discriminate].
        injection Hinsert as <-. simpl. rewrite Hc. simpl.
        rewrite Hneg, Hzero.
        destruct (IH rest' eq_refl) as [node ->]. simpl. eauto.
Qed.

Lemma insert_elem v tree tree' u :
  ExtendedRedBlackTree.insert cmp v tree = Ok tree' ->
  u ∈ tree' -> u = v \/ u ∈ tree.
Proof.
  revert tree'. induction tree as [|w rest IH]; intros tree' Hinsert Hu.
  - injection Hinsert as <-. apply list_elem_of_singleton in Hu. by left.
  - simpl in Hinsert. destruct (cmp v w) as [c|]; [|discriminate].
    simpl in Hinsert. destruct (c <? 0)%Z.
    { injection Hinsert as <-. by apply elem_of_cons in Hu. }
    destruct (c =? 0)%Z.
    { injection Hinsert as <-. by right. }
    destruct (ExtendedRedBlackTree.insert cmp v rest) as [rest'|]; [|discriminate].
    injection Hinsert as <-.
    apply elem_of_cons in Hu. destruct Hu as [Heq|Hrest].
    { right. subst. by left. }
    destruct (IH rest' eq_refl Hrest); [by left | by right; right].
Qed.

Lemma insert_zero_free v tree tree' node :
  (forall u, u ∈ tree -> cmp v u <> Ok 0%Z) ->
  ExtendedRedBlackTree.insert cmp v tree = Ok tree' ->
  ExtendedRedBlackTree.findNode cmp v tree' = Ok (Some node) ->
  exists before after,
    tree = before ++ after /\ tree' = before ++ v :: after
    /\ node = length before.
Proof.
  intros Hfree Hinsert Hfind.
  destruct (insert_findNode v tree tree' node Hinsert Hfind) as [->|]; [|done].
  exfalso. clear Hinsert. revert node Hfind.
  induction tree as [|u rest IH]; intros node Hfind; [discriminate|].
  simpl in Hfind. destruct (cmp v u) as [c|] eqn:Hc; [|discriminate].
  simpl in Hfind. destruct (c <? 0)%Z; [discriminate|].
  destruct (Z.eqb_spec c 0) as [->|_].
  - apply (Hfree u); [by left | done].
  - destruct (ExtendedRedBlackTree.findNode cmp v rest) as [[node'|]|] eqn:Hrest;
      try discriminate.
    apply (IH (fun w Hw => Hfree w (list_elem_of_further _ _ _ Hw)) node' eq_refl).
Qed.

End tree_insertion.

Lemma tree_remove_false {A} (cmp : A -> A -> result Z) v tree tree' :
  ExtendedRedBlackTree.remove cmp v tree = Ok (false, tree') -> tree' = tree.
Proof.
  revert tree'. induction tree as [|u rest IH]; intros tree' Hremove.
  - by injection Hremove as <-.
  - simpl in Hremove. destruct (cmp v u) as [c|]; [|discriminate].
    simpl in Hremove. destruct (c <? 0)%Z; [by injection Hremove as <-|].
    destruct (c =? 0)%Z; [discriminate|].
    destruct (ExtendedRedBlackTree.remove cmp v rest) as [[removed rest']|] eqn:Hrest;
      [|discriminate].
    injection Hremove as -> <-. by rewrite (IH rest' eq_refl).
Qed.

(** ** Heaps that differ in links only *)

Lemma lookup_alter_dec {A} (f : A -> A) (h : list A) i j :
  alter f i h !! j = if decide (i = j) then f <$> h !! j else h !! j.
Proof.
  rewrite list_lookup_alter. by case_decide; subst.
Qed.

Lemma links_only_refl h : links_only h h.
Proof. intros k. by destruct (h !! k). Qed.

Lemma links_only_trans h1 h2 h3 :
  links_only h1 h2 -> links_only h2 h3 -> links_only h1 h3.
Proof.
  intros H12 H23 k. specialize (H12 k). specialize (H23 k).
  destruct (h1 !! k), (h2 !! k), (h3 !! k); try done.
  unfold same_geometry in *. intuition congruence.
Qed.

Lemma links_only_alter f i h :
  (forall s, same_geometry s (f s)) -> links_only h (alter f i h).
Proof.
  intros Hf k. rewrite lookup_alter_dec.
  case_decide; destruct (h !! k); simpl; done.
Qed.

Lemma links_only_link segment next previous h :
  links_only h (linkPrevious segment previous (linkNext segment next h)).
Proof.
  unfold linkPrevious, linkNext.
  destruct next, previous;
    repeat (eapply links_only_trans; [|by apply links_only_alter]);
    apply links_only_refl.
Qed.

Lemma links_only_lookup h h' k s :
  links_only h h' -> h !! k = Some s ->
  exists s', h' !! k = Some s' /\ same_geometry s s'.
Proof.
  intros Hlinks Hk. specialize (Hlinks k). rewrite Hk in Hlinks.
  destruct (h' !! k); [eauto | done].
Qed.

Lemma links_only_length h h' : links_only h h' -> length h' = length h.
Proof.
  intros Hlinks.
  destruct (Nat.lt_trichotomy (length h') (length h)) as [Hlt|[Heq|Hlt]]; [|done|].
  - specialize (Hlinks (length h')).
    destruct (lookup_lt_is_Some_2 h _ Hlt) as [s Hs]. rewrite Hs in Hlinks.
    by rewrite (lookup_ge_None_2 h' (length h')) in Hlinks.
  - specialize (Hlinks (length h)).
    destruct (lookup_lt_is_Some_2 h' _ Hlt) as [s Hs]. rewrite Hs in Hlinks.
    by rewrite (lookup_ge_None_2 h (length h)) in Hlinks.
Qed.

(** The segment [add] returns, and what [add] leaves of the sweep line. *)
Lemma add_segment event this segment this' :
  SweepLine.add event this = Ok (segment, this') ->
  exists s ring_ point1 point2,
    SweepLine.heap this' !! segment = Some s
    /\ segment = length (SweepLine.heap this)
    /\ SweepLine._rings this !! event_ring event = Some ring_
    /\ points ring_ !! event_edge event = Some point1
    /\ points ring_ !! ((event_edge event + 1) mod length (points ring_))
       = Some point2
    /\ edge s = event_edge event /\ ring s = event_ring event
    /\ (leftPoint s, rightPoint s)
       = (if (xyOrder point1 point2 <? 0)%Z
          then (point1, point2) else (point2, point1))
    /\ SweepLine._segments this'
       = <[event_ring event := <[event_edge event := segment]>
             (default ∅ (SweepLine._segments this !! event_ring event))]>
           (SweepLine._segments this)
    /\ (exists s0, links_only (SweepLine.heap this ++ [s0]) (SweepLine.heap this')).
Proof.
  intros Hadd.
  destruct (add_inv _ _ _ _ Hadd)
    as (s0 & tree' & current & Hcreate & _ & _ & _ & _ & _ & Hheap & s & Hs & Hreg).
  destruct (createSegment_inv _ _ _ _ Hcreate)
    as (ring_ & point1 & point2 & s0' & Hring & H1 & H2 & Hs0 & Hseg & Hstate).
  assert (s0' = s0) as ->.
  { apply (f_equal SweepLine.heap) in Hstate. simpl in Hstate.
    by apply app_inj_tail in Hstate as [_ ->]. }
  pose proof (links_only_link segment
                (ExtendedRedBlackTree.getSuccessor tree' current)
                (ExtendedRedBlackTree.getPredecessor tree' current)
                (SweepLine.heap this ++ [s0])) as Hlinks.
  rewrite <- Hheap in Hlinks.
  assert (H0 : (SweepLine.heap this ++ [s0]) !! segment = Some s0).
  { rewrite Hseg. by rewrite lookup_app_r, Nat.sub_diag. }
  destruct (links_only_lookup _ _ _ _ Hlinks H0) as (s' & Hs' & Hedge & Hringeq & Hleft & Hright).
  assert (Heq : Some s' = Some s) by (etrans; [symmetry; exact Hs' | exact Hs]).
  injection Heq as ->.
  assert (Hfields : edge s0 = event_edge event /\ ring s0 = event_ring event
                    /\ (leftPoint s0, rightPoint s0)
                       = (if (xyOrder point1 point2 <? 0)%Z
                          then (point1, point2) else (point2, point1))).
  { rewrite Hs0. by destruct (xyOrder point1 point2 <? 0)%Z. }
  destruct Hfields as (He0 & Hr0 & Hlr0).
  exists s, ring_, point1, point2.
  split; [done|]. split; [done|]. split; [done|]. split; [done|].
  split; [done|]. split; [congruence|]. split; [congruence|].
  split; [by rewrite Hleft, Hright|].
  split; [by rewrite Hreg, Hringeq, Hedge, Hr0, He0 | by exists s0].
Qed.

(** ** [add]: the registry *)

Lemma find_registered event this :
  SweepLine.find event this
  = match registered this (event_ring event) (event_edge event) with
    | Some segment => Ok (segment, this)
    | None => Throw (SFException "Segment not found")
    end.
Proof. reflexivity. Qed.

Lemma registered_insert (m : gmap nat (gmap nat loc)) r e segment r' e' :
  <[r := <[e := segment]> (default ∅ (m !! r))]> m !! r' ≫= (.!! e')
  = if decide ((r', e') = (r, e)) then Some segment else m !! r' ≫= (.!! e').
Proof.
  destruct (decide (r' = r)) as [->|Hr].
  - rewrite lookup_insert_eq. simpl.
    destruct (decide (e' = e)) as [->|He].
    + rewrite lookup_insert_eq. by rewrite decide_True.
    + rewrite lookup_insert_ne by done. rewrite decide_False by congruence.
      destruct (m !! r); simpl; [done | apply lookup_empty].
  - rewrite lookup_insert_ne by done. by rewrite decide_False by congruence.
Qed.

(** X5: after [add] has returned a segment for an event, [find] on that
    event returns this segment; the registry entries of all other edges are
    as they were. *)
Theorem add_then_find (event : Event) (this : SweepLine.t) (segment : loc)
    (this' : SweepLine.t) :
  SweepLine.add event this = Ok (segment, this') ->
  SweepLine.find event this' = Ok (segment, this')
  /\ (forall r e, (r, e) <> (event_ring event, event_edge event) ->
                  registered this' r e = registered this r e).
Proof.
  intros Hadd.
  destruct (add_segment _ _ _ _ Hadd)
    as (s & ring_ & p1 & p2 & _ & _ & _ & _ & _ & _ & _ & _ & Hreg & _).
  split.
  - rewrite find_registered. unfold registered. rewrite Hreg, registered_insert.
    by rewrite decide_True.
  - intros r e Hne. unfold registered. rewrite Hreg, registered_insert.
    by rewrite decide_False.
Qed.

(** The first two Left events of the square: edge 0, then edge 3. *)
Lemma add_then_find_witness :
  let event := mkEvent 3 0 (mkPoint 0 0) Left in
  SweepLine.find event (squareAfter 2) = Ok (1, squareAfter 2)
  /\ registered (squareAfter 2) 0 0 = registered (squareAfter 1) 0 0.
Proof.
  intros event.
  assert (Hadd : SweepLine.add event (squareAfter 1) = Ok (1, squareAfter 2))
    by (vm_compute; reflexivity).
  destruct (add_then_find event (squareAfter 1) 1 (squareAfter 2) Hadd)
    as [Hfind Hframe].
  split; [exact Hfind|]. apply Hframe. discriminate.
Defined.

(** ** [add]: the links to the neighbours *)

Lemma link_lookups segment next previous (h : list Segment) s0 :
  h !! segment = Some s0 -> above s0 = None -> below s0 = None ->
  (forall n, next = Some n -> n <> segment /\ is_Some (h !! n)) ->
  (forall p, previous = Some p -> p <> segment /\ is_Some (h !! p)) ->
  let h' := linkPrevious segment previous (linkNext segment next h) in
  above <$> h' !! segment = Some next
  /\ below <$> h' !! segment = Some previous
  /\ (forall n, next = Some n -> below <$> h' !! n = Some (Some segment))
  /\ (forall p, previous = Some p -> above <$> h' !! p = Some (Some segment)).
Proof.
  intros Hs Habove Hbelow Hnext Hprevious h'. subst h'.
  unfold linkPrevious, linkNext, loc in *.
  destruct next as [n|], previous as [p|].
  all: try (destruct (Hnext n eq_refl) as [Hn [sn Hsn]]).
  all: try (destruct (Hprevious p eq_refl) as [Hp [sp Hsp]]).
  all: repeat split; try (intros ? [= <-]); try discriminate.
  all: rewrite ?lookup_alter_dec.
  all: repeat case_decide; try congruence.
  all: rewrite ?Hs, ?Hsn, ?Hsp; simpl; try rewrite Habove; try rewrite Hbelow;
    try reflexivity.
  all: subst; rewrite ?Hsn; reflexivity.
Qed.

Lemma key_ready (this : SweepLine.t) (h : list Segment) (x : option number) u :
  key (SweepLine.set_x x (SweepLine.set_heap h this)) u
  = (fun s => (ring s, edge s)) <$> h !! u.
Proof. reflexivity. Qed.

(** X6: on a sweep line whose tree holds stored segments only, none of them
    of the event's edge, [add] puts the new segment at one place of the tree
    order and links it both ways: its [above] is the next segment of the tree
    (none at the top), its [below] the previous one (none at the bottom), and
    these two refer back to it. *)
Theorem add_links_neighbours (event : Event) (this : SweepLine.t)
    (segment : loc) (this' : SweepLine.t) :
  SweepLine.add event this = Ok (segment, this') ->
  valid_tree this ->
  (forall u, u ∈ SweepLine._tree this ->
             key this u <> Some (event_ring event, event_edge event)) ->
  exists before after,
    SweepLine._tree this = before ++ after
    /\ SweepLine._tree this' = before ++ segment :: after
    /\ above <$> SweepLine.heap this' !! segment = Some (head after)
    /\ below <$> SweepLine.heap this' !! segment = Some (last before)
    /\ (forall n, head after = Some n ->
                  below <$> SweepLine.heap this' !! n = Some (Some segment))
    /\ (forall p, last before = Some p ->
                  above <$> SweepLine.heap this' !! p = Some (Some segment)).
Proof.
  intros Hadd Hvalid Hfresh.
  destruct (add_inv _ _ _ _ Hadd)
    as (s0 & tree' & current & Hcreate & Hinsert & Hfind & _ & _ & Htree & Hheap & _).
  destruct (createSegment_inv _ _ _ _ Hcreate)
    as (ring_ & point1 & point2 & s0' & _ & _ & _ & Hs0 & Hseg & Hstate).
  assert (s0' = s0) as ->.
  { apply (f_equal SweepLine.heap) in Hstate. simpl in Hstate.
    by apply app_inj_tail in Hstate as [_ ->]. }
  assert (Hs0f : ring s0 = event_ring event /\ edge s0 = event_edge event
                 /\ above s0 = None /\ below s0 = None).
  { rewrite Hs0. by destruct (xyOrder point1 point2 <? 0)%Z. }
  destruct Hs0f as (Hr0 & He0 & Ha0 & Hb0).
  assert (H0 : (SweepLine.heap this ++ [s0]) !! segment = Some s0).
  { rewrite Hseg. by rewrite lookup_app_r, Nat.sub_diag. }
  assert (Hold : forall u, u ∈ SweepLine._tree this ->
                           u <> segment
                           /\ (SweepLine.heap this ++ [s0]) !! u
                              = SweepLine.heap this !! u
                           /\ is_Some (SweepLine.heap this !! u)).
  { intros u Hu. unfold valid_tree in Hvalid. rewrite Forall_forall in Hvalid.
    pose proof (Hvalid u Hu) as Hlt. split; [lia|].
    split; [by apply lookup_app_l | by apply lookup_lt_is_Some_2]. }
  assert (Hfree : forall u, u ∈ SweepLine._tree this ->
             SweepLine.bound_compare
               (SweepLine.set_x (Some (point_x (event_point event)))
                  (SweepLine.set_heap (SweepLine.heap this ++ [s0]) this))
               segment u <> Ok 0%Z).
  { intros u Hu Hzero. apply bound_compare_zero in Hzero as (k & Hk & Hku).
    rewrite key_ready in Hk, Hku.
    destruct (Hold u Hu) as (_ & Hlook & _).
    apply (Hfresh u Hu). unfold key, loc in *.
    rewrite <- Hlook, Hku, <- Hk, H0. simpl. by rewrite Hr0, He0. }
  destruct (insert_zero_free _ _ _ _ _ Hfree Hinsert Hfind)
    as (before & after & Hsplit & Htree' & Hcurrent).
  exists before, after. split; [done|]. split; [by rewrite Htree|].
  assert (Hsucc : ExtendedRedBlackTree.getSuccessor tree' current = head after).
  { unfold ExtendedRedBlackTree.getSuccessor. rewrite Htree', Hcurrent.
    rewrite lookup_app_r by lia.
    replace (S (length before) - length before) with 1 by lia.
    by destruct after. }
  assert (Hpred : ExtendedRedBlackTree.getPredecessor tree' current = last before).
  { unfold ExtendedRedBlackTree.getPredecessor. rewrite Htree', Hcurrent.
    rewrite last_lookup. destruct (length before) as [|n] eqn:Hlen.
    - by destruct before.
    - simpl. apply lookup_app_l. lia. }
  rewrite Hheap, Hsucc, Hpred.
  apply (link_lookups segment (head after) (last before) _ s0 H0 Ha0 Hb0).
  - intros n Hn.
    assert (Hin : n ∈ SweepLine._tree this).
    { rewrite Hsplit. apply elem_of_app. right. destruct after; [done|].
      injection Hn as ->. by left. }
    destruct (Hold n Hin) as (? & -> & ?). done.
  - intros p Hp.
    assert (Hin : p ∈ SweepLine._tree this).
    { rewrite Hsplit. apply elem_of_app. left.
      rewrite last_lookup in Hp. by apply list_elem_of_lookup_2 in Hp. }
    destruct (Hold p Hin) as (? & -> & ?). done.
Qed.

(** Edge 2 of the square enters between edge 0 (location 0) and edge 3
    (location 1). *)
Lemma add_links_neighbours_witness :
  exists before after,
    SweepLine._tree (squareAfter 2) = before ++ after
    /\ SweepLine._tree (squareAfter 3) = before ++ 2 :: after
    /\ above <$> SweepLine.heap (squareAfter 3) !! 2 = Some (head after)
    /\ below <$> SweepLine.heap (squareAfter 3) !! 2 = Some (last before)
    /\ (forall n, head after = Some n ->
                  below <$> SweepLine.heap (squareAfter 3) !! n = Some (Some 2))
    /\ (forall p, last before = Some p ->
                  above <$> SweepLine.heap (squareAfter 3) !! p = Some (Some 2)).
Proof.
  assert (Htree : SweepLine._tree (squareAfter 2) = [0; 1])
    by (vm_compute; reflexivity).
  apply (add_links_neighbours (mkEvent 2 0 (mkPoint 0 4) Left) (squareAfter 2)
           2 (squareAfter 3)).
  - vm_compute. reflexivity.
  - unfold valid_tree. rewrite Htree.
    repeat constructor; vm_compute; lia.
  - intros u Hu. rewrite Htree in Hu.
    apply elem_of_cons in Hu as [->|Hu]; [vm_compute; discriminate|].
    apply list_elem_of_singleton in Hu as ->. vm_compute. discriminate.
Defined.

(** ** [add] returns *)

(** X7: [add] returns a segment, and does not throw, whenever the event
    names an edge of the rings and the tree holds stored segments only: the
    comparator's x is set before the tree is used, and the inserted segment
    is always found again, so "Segment not found" cannot occur. The segment
    is a new object. *)
Theorem add_returns (event : Event) (this : SweepLine.t) (ring_ : LineString)
    (point1 : Point) :
  SweepLine._rings this !! event_ring event = Some ring_ ->
  points ring_ !! event_edge event = Some point1 ->
  valid_tree this ->
  exists this',
    SweepLine.add event this = Ok (length (SweepLine.heap this), this').
Proof.
  intros Hring H1 Hvalid.
  destruct (lookup_lt_is_Some_2 (points ring_)
              ((event_edge event + 1) mod length (points ring_)))
    as [point2 H2].
  { apply Nat.mod_upper_bound. apply lookup_lt_Some in H1. lia. }
  set (lr := if (xyOrder point1 point2 <? 0)%Z
             then (point1, point2) else (point2, point1)).
  set (s0 := mkSegment (event_edge event) (event_ring event) lr.1 lr.2 None None).
  set (segment := length (SweepLine.heap this)).
  set (ready := SweepLine.set_x (Some (point_x (event_point event)))
                  (SweepLine.set_heap (SweepLine.heap this ++ [s0]) this)).
  assert (Hcreate : SweepLine.createSegment event this
                    = Ok (segment, SweepLine.set_heap
                                     (SweepLine.heap this ++ [s0]) this)).
  { unfold SweepLine.createSegment. rewrite Hring. simpl.
    rewrite H1. simpl. rewrite H2. reflexivity. }
  assert (H0 : SweepLine.heap ready !! segment = Some s0).
  { simpl. unfold segment. by rewrite lookup_app_r, Nat.sub_diag. }
  assert (Hself : SweepLine.bound_compare ready segment segment = Ok 0%Z).
  { unfold SweepLine.bound_compare, loc in *. rewrite H0. simpl.
    apply compare_diag. }
  assert (Htotal : forall u, u ∈ SweepLine._tree this ->
                             is_Ok (SweepLine.bound_compare ready segment u) = true).
  { intros u Hu. unfold valid_tree in Hvalid. rewrite Forall_forall in Hvalid.
    destruct (lookup_lt_is_Some_2 (SweepLine.heap this) u (Hvalid u Hu))
      as [su Hsu].
    unfold SweepLine.bound_compare, loc in *. rewrite H0. simpl.
    rewrite (lookup_app_l_Some _ _ _ _ Hsu). reflexivity. }
  destruct (insert_total _ segment _ Htotal) as [tree' Hinsert].
  destruct (insert_found _ segment _ tree' Hself Hinsert) as [node Hfind].
  unfold SweepLine.add.
  rewrite (M_bind_step _ _ _ _ _ Hcreate).
  erewrite M_bind_step by reflexivity.
  assert (Hti : SweepLine.tree_insert segment ready
                = Ok (tt, SweepLine.logged (SweepLine.TreeInsert segment)
                            (SweepLine.set_tree tree' ready))).
  { unfold SweepLine.tree_insert, loc in *.
    change (SweepLine._tree ready) with (SweepLine._tree this).
    by rewrite Hinsert. }
  rewrite (M_bind_step _ _ _ _ _ Hti).
  assert (Htf : SweepLine.tree_findNode segment
                  (SweepLine.logged (SweepLine.TreeInsert segment)
                     (SweepLine.set_tree tree' ready))
                = Ok (Some node,
                      SweepLine.logged (SweepLine.TreeFindNode segment)
                        (SweepLine.logged (SweepLine.TreeInsert segment)
                           (SweepLine.set_tree tree' ready)))).
  { unfold SweepLine.tree_findNode, loc in *.
    change (SweepLine.bound_compare (SweepLine.logged _ (SweepLine.set_tree tree' ready)))
      with (SweepLine.bound_compare ready).
    simpl SweepLine._tree. by rewrite Hfind. }
  rewrite (M_bind_step _ _ _ _ _ Htf).
  unfold SweepLine.set_above, SweepLine.set_below, SweepLine.deref, loc in *.
  munfold. simpl.
  destruct (ExtendedRedBlackTree.getSuccessor tree' node) as [n|],
    (ExtendedRedBlackTree.getPredecessor tree' node) as [p|]; simpl.
  all: match goal with
       | |- context [defined (?h !! ?k) _] =>
           destruct (lookup_lt_is_Some_2 h k) as [s Hs];
           [rewrite ?length_alter, length_app; simpl; unfold segment; lia
           |rewrite Hs; simpl; eauto]
       end.
Qed.

(** Edge 2 of the square on the sweep line that holds edges 0 and 3. *)
Lemma add_returns_witness :
  exists this',
    SweepLine.add (mkEvent 2 0 (mkPoint 0 4) Left) (squareAfter 2)
    = Ok (length (SweepLine.heap (squareAfter 2)), this').
Proof.
  apply (add_returns (mkEvent 2 0 (mkPoint 0 4) Left) (squareAfter 2)
           (mkLineString (ShamosHoey.dropClosingPoint square)) (mkPoint 4 4)).
  - vm_compute. reflexivity.
  - vm_compute. reflexivity.
  - assert (Htree : SweepLine._tree (squareAfter 2) = [0; 1])
      by (vm_compute; reflexivity).
    unfold valid_tree. rewrite Htree. repeat constructor; vm_compute; lia.
Defined.

(** ** The segment [add] creates *)

(** X8: the segment [add] returns belongs to the event's ring and edge, its
    two points are the end points of that edge, and they are oriented: the
    left point is never after the right point in XY order. *)
Theorem add_orients_segment (event : Event) (this : SweepLine.t)
    (segment : loc) (this' : SweepLine.t) :
  SweepLine.add event this = Ok (segment, this') ->
  exists s ring_ point1 point2,
    SweepLine.heap this' !! segment = Some s
    /\ SweepLine._rings this !! event_ring event = Some ring_
    /\ points ring_ !! event_edge event = Some point1
    /\ points ring_ !! ((event_edge event + 1) mod length (points ring_))
       = Some point2
    /\ ring s = event_ring event /\ edge s = event_edge event
    /\ ((leftPoint s = point1 /\ rightPoint s = point2)
        \/ (leftPoint s = point2 /\ rightPoint s = point1))
    /\ (xyOrder (leftPoint s) (rightPoint s) <= 0)%Z.
Proof.
  intros Hadd.
  destruct (add_segment _ _ _ _ Hadd)
    as (s & ring_ & point1 & point2 & Hs & _ & Hring & H1 & H2 & Hedge & Hringeq
        & Hlr & _).
  exists s, ring_, point1, point2. repeat (split; [done|]).
  destruct (Z.ltb_spec (xyOrder point1 point2) 0) as [Hlt|Hge];
    injection Hlr as -> ->.
  - split; [by left | lia].
  - split; [by right | rewrite xyOrder_opp; lia].
Qed.

(** Edge 2 of the square runs from (4,4) to (0,4): the segment is stored
    from (0,4) to (4,4). *)
Lemma add_orients_segment_witness :
  exists s ring_ point1 point2,
    SweepLine.heap (squareAfter 3) !! 2 = Some s
    /\ SweepLine._rings (squareAfter 2) !! 0 = Some ring_
    /\ points ring_ !! 2 = Some point1
    /\ points ring_ !! ((2 + 1) mod length (points ring_)) = Some point2
    /\ ring s = 0 /\ edge s = 2
    /\ ((leftPoint s = point1 /\ rightPoint s = point2)
        \/ (leftPoint s = point2 /\ rightPoint s = point1))
    /\ (xyOrder (leftPoint s) (rightPoint s) <= 0)%Z.
Proof.
  apply (add_orients_segment (mkEvent 2 0 (mkPoint 0 4) Left) (squareAfter 2)
           2 (squareAfter 3)).
  vm_compute. reflexivity.
Defined.

(** ** What the sweep never changes *)

Lemma heap_kept_refl h : heap_kept h h.
Proof. intros l s Hs. exists s. by repeat split. Qed.

Lemma heap_kept_trans h1 h2 h3 :
  heap_kept h1 h2 -> heap_kept h2 h3 -> heap_kept h1 h3.
Proof.
  intros H12 H23 l s Hs.
  destruct (H12 l s Hs) as (s2 & Hs2 & Hg2).
  destruct (H23 l s2 Hs2) as (s3 & Hs3 & Hg3).
  exists s3. split; [done|]. unfold same_geometry in *. intuition congruence.
Qed.

Lemma links_only_kept h h' : links_only h h' -> heap_kept h h'.
Proof. intros Hlinks l s Hs. by apply (links_only_lookup h). Qed.

Lemma add_heap_kept event this segment this' :
  SweepLine.add event this = Ok (segment, this') ->
  heap_kept (SweepLine.heap this) (SweepLine.heap this')
  /\ SweepLine._rings this' = SweepLine._rings this.
Proof.
  intros Hadd. split.
  - destruct (add_segment _ _ _ _ Hadd)
      as (s & ring_ & p1 & p2 & _ & _ & _ & _ & _ & _ & _ & _ & _ & s0 & Hlinks).
    intros l sl Hl. apply (links_only_lookup _ _ _ _ Hlinks).
    by apply lookup_app_l_Some.
  - by destruct (add_inv _ _ _ _ Hadd)
      as (? & ? & ? & _ & _ & _ & Hrings & _).
Qed.

Lemma remove_heap_kept segment this this' :
  SweepLine.remove segment this = Ok (tt, this') ->
  heap_kept (SweepLine.heap this) (SweepLine.heap this')
  /\ SweepLine._rings this' = SweepLine._rings this.
Proof.
  intros Hremove. unfold SweepLine.remove in Hremove.
  apply M_bind_Ok in Hremove as (removed & t1 & Hfirst & Hremove).
  unfold SweepLine.tree_remove in Hfirst.
  apply result_bind_Ok in Hfirst as (r1 & _ & Heq). injection Heq as <- <-.
  apply M_bind_Ok in Hremove as (removed' & t3 & Hretry & Hremove).
  assert (Hsame : SweepLine.heap t3 = SweepLine.heap this
                  /\ SweepLine._rings t3 = SweepLine._rings this).
  { destruct r1.1.
    - apply M_bind_Ok in Hretry as (s1 & t1' & Hderef & Hretry).
      unfold SweepLine.deref in Hderef. simpl in Hderef.
      destruct (SweepLine.heap this !! segment); [|discriminate].
      injection Hderef as <- <-.
      apply M_bind_Ok in Hretry as ([] & t2 & Hset & Hretry).
      injection Hset as <-. unfold SweepLine.tree_remove in Hretry.
      apply result_bind_Ok in Hretry as (r2 & _ & Heq).
      injection Heq as _ <-. done.
    - injection Hretry as _ <-. done. }
  destruct Hsame as [Hheap Hrings].
  destruct removed'; cycle 1.
  { injection Hremove as <-. rewrite Hheap, Hrings. split; [apply heap_kept_refl|done]. }
  munfold. unfold SweepLine.deref, SweepLine.set_above, SweepLine.set_below in Hremove.
  munfold. simpl in Hremove.
  destruct (SweepLine.heap t3 !! segment) as [s3|]; [|discriminate].
  simpl in Hremove.
  destruct (above s3), (below s3); simpl in Hremove; injection Hremove as <-;
    simpl; rewrite Hheap; (split; [|done]); apply links_only_kept;
    repeat (eapply links_only_trans; [|by apply links_only_alter]);
    apply links_only_refl.
Qed.

(** X9: whatever events a sweep processes, when it returns every segment
    that was stored before is still stored at its location and has kept its
    edge, ring, left point and right point; only [above] and [below] are ever
    rewritten. The rings are not changed either. *)
Theorem sweep_keeps_geometry (events : list Event) (this : SweepLine.t)
    (simple : bool) (this' : SweepLine.t) :
  ShamosHoey.sweep events this = Ok (simple, this') ->
  heap_kept (SweepLine.heap this) (SweepLine.heap this')
  /\ SweepLine._rings this' = SweepLine._rings this.
Proof.
  revert this. induction events as [|event rest IH]; intros this Hsweep.
  { injection Hsweep as _ <-. split; [apply heap_kept_refl | done]. }
  simpl in Hsweep. destruct (event_type event).
  - apply M_bind_Ok in Hsweep as (segment & t1 & Hadd & Hsweep).
    apply add_heap_kept in Hadd as [Hkept Hrings].
    apply M_bind_Ok in Hsweep as (s & t1' & Hderef & Hsweep).
    unfold SweepLine.deref, SweepLine.lift in Hderef.
    destruct (defined _ _); [|discriminate]. injection Hderef as -> <-.
    apply M_bind_Ok in Hsweep as (hitBelow & t2 & Hbelow & Hsweep).
    apply (intersect_reads (Some segment) (below s)) in Hbelow as ->.
    destruct hitBelow; [by injection Hsweep as _ <-|].
    apply M_bind_Ok in Hsweep as (hitAbove & t2 & Habove & Hsweep).
    apply (intersect_reads (Some segment) (above s)) in Habove as ->.
    destruct hitAbove; [by injection Hsweep as _ <-|].
    destruct (IH t1 Hsweep) as [Hkept' Hrings'].
    split; [by eapply heap_kept_trans | congruence].
  - apply M_bind_Ok in Hsweep as (segment & t1 & Hfind & Hsweep).
    rewrite find_registered in Hfind.
    destruct (registered this _ _); [|discriminate]. injection Hfind as -> <-.
    apply M_bind_Ok in Hsweep as (s & t1' & Hderef & Hsweep).
    unfold SweepLine.deref, SweepLine.lift in Hderef.
    destruct (defined _ _); [|discriminate]. injection Hderef as -> <-.
    apply M_bind_Ok in Hsweep as (hit & t2 & Hhit & Hsweep).
    apply (intersect_reads (above s) (below s)) in Hhit as ->.
    destruct hit; [injection Hsweep as _ <-; split; [apply heap_kept_refl|done]|].
    apply M_bind_Ok in Hsweep as ([] & t3 & Hremove & Hsweep).
    apply remove_heap_kept in Hremove as [Hkept Hrings].
    destruct (IH t3 Hsweep) as [Hkept' Hrings'].
    split; [by eapply heap_kept_trans | congruence].
Qed.

(** The sweep of the square from its third event to its end. *)
Lemma sweep_keeps_geometry_witness :
  heap_kept (SweepLine.heap (squareAfter 2)) (SweepLine.heap (squareAfter 8))
  /\ SweepLine._rings (squareAfter 8) = SweepLine._rings (squareAfter 2).
Proof.
  apply (sweep_keeps_geometry (drop 2 (stableEventQueue squareCopies))
           (squareAfter 2) true (squareAfter 8)).
  vm_compute. reflexivity.
Defined.

(** ** What [remove] does *)

(** X10: in a tree that holds at most one segment per edge, [remove] takes
    at most one node out of the tree, a node of the segment's ring and edge,
    and changes nothing else: no [above] or [below] field and no registry
    entry. The segment stays registered, so [find] still returns it. *)
Theorem remove_takes_one_node (this : SweepLine.t) (segment : loc)
    (this' : SweepLine.t) :
  NoDup (key this <$> SweepLine._tree this) ->
  SweepLine.remove segment this = Ok (tt, this') ->
  SweepLine.heap this' = SweepLine.heap this
  /\ SweepLine._segments this' = SweepLine._segments this
  /\ (SweepLine._tree this' = SweepLine._tree this
      \/ exists before u after,
           SweepLine._tree this = before ++ u :: after
           /\ SweepLine._tree this' = before ++ after
           /\ key this u = key this segment /\ is_Some (key this u)).
Proof.
  intros Hkeys Hremove. unfold SweepLine.remove in Hremove.
  apply M_bind_Ok in Hremove as (removed & t1 & Hfirst & Hremove).
  unfold SweepLine.tree_remove in Hfirst.
  apply result_bind_Ok in Hfirst as ([removed1 tree1] & Hfirst & Heq).
  injection Heq as <- <-.
  destruct removed1; simpl in Hremove; cycle 1.
  { apply tree_remove_false in Hfirst as ->.
    munfold. simpl in Hremove. injection Hremove as <-. simpl. auto. }
  apply tree_remove_true in Hfirst
    as (before & u & after & Htree & -> & (k & Hk & Hku)%bound_compare_zero).
  apply M_bind_Ok in Hremove as (removed' & t3 & Hretry & Hremove).
  apply M_bind_Ok in Hretry as (s1 & t1' & Hderef & Hretry).
  unfold SweepLine.deref in Hderef. simpl in Hderef.
  destruct (SweepLine.heap this !! segment) as [s|]; [|discriminate].
  injection Hderef as <- <-.
  apply M_bind_Ok in Hretry as ([] & t2 & Hset & Hretry).
  injection Hset as <-.
  unfold SweepLine.tree_remove in Hretry.
  apply result_bind_Ok in Hretry as ([removed2 tree2] & Hsecond & Heq).
  injection Heq as <- <-.
  destruct removed2; simpl in Hremove.
  - exfalso. simpl in Hsecond.
    apply tree_remove_true in Hsecond
      as (before' & u' & after' & Htree' & _ & (k' & Hk' & Hku')%bound_compare_zero).
    change (key _ segment) with (key this segment) in Hk'.
    change (key _ u') with (key this u') in Hku'.
    assert (k' = k) as -> by congruence.
    rewrite Htree, fmap_app, fmap_cons in Hkeys.
    apply NoDup_app in Hkeys as (_ & Hfront & Hback).
    apply NoDup_cons in Hback as [Hback _].
    assert (Hin : u' ∈ before ++ after).
    { rewrite Htree'. apply elem_of_app. right. by left. }
    apply elem_of_app in Hin as [Hin|Hin].
    + apply (Hfront (key this u')); [by apply list_elem_of_fmap_2|].
      rewrite Hku', <- Hku. by left.
    + apply Hback. rewrite Hku, <- Hku'. by apply list_elem_of_fmap_2.
  - simpl in Hsecond. apply tree_remove_false in Hsecond as ->.
    munfold. simpl in Hremove. injection Hremove as <-. simpl.
    split; [done|]. split; [done|]. right.
    exists before, u, after. repeat split; [done|congruence|by rewrite Hku].
Qed.

(** The Right event of edge 3 of the square: the tree holds edges 0, 2 and
    3 (locations 0, 2 and 1). *)
Lemma remove_takes_one_node_witness :
  SweepLine.heap (squareAfter 4) = SweepLine.heap (squareAfter 3)
  /\ SweepLine._segments (squareAfter 4) = SweepLine._segments (squareAfter 3)
  /\ (SweepLine._tree (squareAfter 4) = SweepLine._tree (squareAfter 3)
      \/ exists before u after,
           SweepLine._tree (squareAfter 3) = before ++ u :: after
           /\ SweepLine._tree (squareAfter 4) = before ++ after
           /\ key (squareAfter 3) u = key (squareAfter 3) 1
           /\ is_Some (key (squareAfter 3) u)).
Proof.
  apply (remove_takes_one_node (squareAfter 3) 1 (squareAfter 4)).
  - assert (Hkeys : key (squareAfter 3) <$> SweepLine._tree (squareAfter 3)
                    = [Some (0, 0); Some (0, 2); Some (0, 3)])
      by (vm_compute; reflexivity).
    rewrite Hkeys. apply (bool_decide_unpack _). vm_compute. reflexivity.
  - vm_compute. reflexivity.
Defined.

(** ** Events the sweep line cannot handle *)

(** X11: a Right event whose edge has no registry entry, as when it comes
    before the Left event of its edge, ends the sweep with the [SFException]
    "Segment not found"; the sweep returns no boolean. *)
Theorem sweep_right_unregistered (event : Event) (rest : list Event)
    (this : SweepLine.t) :
  event_type event = Right ->
  registered this (event_ring event) (event_edge event) = None ->
  ShamosHoey.sweep (event :: rest) this
  = Throw (SFException "Segment not found").
Proof.
  intros Htype Hnone. simpl. rewrite Htype.
  apply M_bind_Throw. rewrite find_registered. by rewrite Hnone.
Qed.

(** The event queue of the square with its first Right event moved to the
    front, on a new sweep line. *)
Lemma sweep_right_unregistered_witness :
  ShamosHoey.sweep (mkEvent 3 0 (mkPoint 0 4) Right :: stableEventQueue squareCopies)
    (SweepLine.new squareCopies)
  = Throw (SFException "Segment not found").
Proof.
  apply sweep_right_unregistered; [reflexivity | vm_compute; reflexivity].
Defined.

(** X12: [add] throws a [TypeError], and returns no segment, for an event
    whose ring number is not an index of the rings or whose edge number is not
    an index of that ring's points; the sweep of an event list that starts
    with such a Left event throws it as well. *)
Theorem add_unknown_edge (event : Event) (rest : list Event) (this : SweepLine.t) :
  SweepLine._rings this !! event_ring event = None
  \/ (exists ring_, SweepLine._rings this !! event_ring event = Some ring_
                    /\ points ring_ !! event_edge event = None) ->
  exists msg,
    SweepLine.add event this = Throw (TypeError msg)
    /\ (event_type event = Left ->
        ShamosHoey.sweep (event :: rest) this = Throw (TypeError msg)).
Proof.
  intros Hbad.
  assert (Hcreate : exists msg,
             SweepLine.createSegment event this = Throw (TypeError msg)).
  { unfold SweepLine.createSegment.
    destruct Hbad as [-> | (ring_ & -> & Hedge)]; simpl; [eauto|].
    rewrite Hedge. simpl. eauto. }
  destruct Hcreate as [msg Hcreate]. exists msg.
  assert (Hadd : SweepLine.add event this = Throw (TypeError msg)).
  { unfold SweepLine.add. by apply M_bind_Throw. }
  split; [exact Hadd|]. intros Htype. simpl. rewrite Htype.
  by apply M_bind_Throw.
Qed.

(** An event for edge 4 of the square, which has edges 0 to 3. *)
Lemma add_unknown_edge_witness :
  exists msg,
    SweepLine.add (mkEvent 4 0 (mkPoint 0 0) Left) (SweepLine.new squareCopies)
    = Throw (TypeError msg)
    /\ (Left = Left ->
        ShamosHoey.sweep [mkEvent 4 0 (mkPoint 0 0) Left] (SweepLine.new squareCopies)
        = Throw (TypeError msg)).
Proof.
  apply (add_unknown_edge (mkEvent 4 0 (mkPoint 0 0) Left) []
           (SweepLine.new squareCopies)).
  right. eexists. split; vm_compute; reflexivity.
Defined.

(** ** The ring loop, ring by ring *)

Section ring_loop.
Context `{GeometryUtils}.

Lemma holesApart_true firstPoint ringCopyPoints holes :
  ShamosHoey.holesApart firstPoint ringCopyPoints holes = Ok true <->
  forall hole, hole ∈ holes ->
    pointInPolygonRingPoints firstPoint (points hole) = false
    /\ exists hole0, points hole !! 0 = Some hole0
                     /\ pointInPolygonRingPoints hole0 ringCopyPoints = false.
Proof.
  induction holes as [|hole rest IH]; simpl.
  { split; [by intros _ hole ?%elem_of_nil | done]. }
  split.
  - intros Hloop.
    destruct (pointInPolygonRingPoints firstPoint (points hole)) eqn:Hin;
      [discriminate|].
    destruct (points hole !! 0) as [hole0|] eqn:H0; [|discriminate].
    simpl in Hloop.
    destruct (pointInPolygonRingPoints hole0 ringCopyPoints) eqn:Hin0;
      [discriminate|].
    intros hole' [->|Hrest]%elem_of_cons; [eauto|].
    by apply IH.
  - intros Hall.
    destruct (Hall hole (list_elem_of_here _ _)) as (-> & hole0 & -> & Hin0).
    simpl. rewrite Hin0. apply IH. intros hole' Hhole'. apply Hall. by right.
Qed.

Lemma checkRings_accepts rings :
  forall todo i ringCopies,
    drop i rings = todo ->
    (forall k r, todo !! k = Some r -> accepted rings (i + k) r) ->
    ShamosHoey.checkRings rings i todo ringCopies
    = Ok (true, ringCopies ++ map ringCopy todo).
Proof.
  induction todo as [|ring_ todo' IH]; intros i ringCopies Hdrop Hall.
  { simpl. by rewrite app_nil_r. }
  assert (Hnext : drop (S i) rings = todo').
  { change (S i) with (1 + i). rewrite Nat.add_comm, <- drop_drop, Hdrop. done. }
  assert (Hrest : forall k r, todo' !! k = Some r -> accepted rings (S i + k) r).
  { intros k r Hk. replace (S i + k) with (i + S k) by lia. by apply Hall. }
  destruct (Hall 0 ring_ eq_refl) as [Hlen Hhole].
  rewrite Nat.add_0_r in Hhole. unfold ringCopy in Hlen, Hhole.
  simpl points in Hlen, Hhole.
  simpl.
  destruct (Nat.ltb_spec (length (ShamosHoey.dropClosingPoint (points ring_))) 3);
    [lia|].
  rewrite (IH (S i) _ Hnext Hrest).
  rewrite <- app_assoc.
  destruct (Nat.ltb_spec 0 i) as [Hpos|]; [|done].
  destruct (Hhole Hpos) as (firstPoint & ring0 & Hfirst & Hring0 & Hin & Hapart).
  rewrite Hfirst, Hring0. simpl. rewrite Hin. simpl.
  apply holesApart_true in Hapart. by rewrite Hapart.
Qed.

Lemma checkRings_true rings :
  forall todo i ringCopies ringCopies',
    ShamosHoey.checkRings rings i todo ringCopies = Ok (true, ringCopies') ->
    forall k r, todo !! k = Some r -> accepted rings (i + k) r.
Proof.
  induction todo as [|ring_ todo' IH];
    intros i ringCopies ringCopies' Hloop k r Hk; [done|].
  simpl in Hloop.
  destruct (Nat.ltb_spec (length (ShamosHoey.dropClosingPoint (points ring_))) 3)
    as [|Hlen]; [discriminate|].
  assert (Hthis : accepted rings i ring_
                  /\ ShamosHoey.checkRings rings (S i) todo'
                       (ringCopies
                        ++ [mkLineString (ShamosHoey.dropClosingPoint (points ring_))])
                     = Ok (true, ringCopies')).
  { unfold accepted, ringCopy. simpl points.
    destruct (Nat.ltb_spec 0 i) as [Hpos|Hzero].
    - destruct (ShamosHoey.dropClosingPoint (points ring_) !! 0)
        as [firstPoint|] eqn:Hfirst; [|discriminate].
      destruct (rings !! 0) as [ring0|] eqn:H0; [|discriminate].
      simpl in Hloop.
      destruct (pointInPolygonRing firstPoint ring0) eqn:Hin; [|discriminate].
      simpl in Hloop.
      destruct (ShamosHoey.holesApart firstPoint
                  (ShamosHoey.dropClosingPoint (points ring_))
                  (take (i - 1) (drop 1 rings))) as [[]|] eqn:Hapart;
        try discriminate.
      split; [|exact Hloop]. split; [done|]. intros _.
      exists firstPoint, ring0. repeat (split; [done|]).
      by apply holesApart_true.
    - split; [|exact Hloop]. split; [done | lia]. }
  destruct Hthis as [Hthis Hloop'].
  destruct k as [|k'].
  - injection Hk as <-. by rewrite Nat.add_0_r.
  - replace (i + S k') with (S i + k') by lia. by eapply IH.
Qed.

Lemma checkRings_total rings :
  forall todo i ringCopies,
    drop i rings = todo ->
    (forall r, r ∈ take i rings -> points r <> []) ->
    exists passed ringCopies',
      ShamosHoey.checkRings rings i todo ringCopies = Ok (passed, ringCopies').
Proof.
  induction todo as [|ring_ todo' IH]; intros i ringCopies Hdrop Hprev;
    [simpl; eauto|].
  assert (Hi : rings !! i = Some ring_).
  { rewrite <- (Nat.add_0_r i), <- lookup_drop, Hdrop. done. }
  assert (Hnext : drop (S i) rings = todo').
  { change (S i) with (1 + i). rewrite Nat.add_comm, <- drop_drop, Hdrop. done. }
  simpl.
  destruct (Nat.ltb_spec (length (ShamosHoey.dropClosingPoint (points ring_))) 3)
    as [|Hlen]; [eauto|].
  assert (Hprev' : forall r', r' ∈ take (S i) rings -> points r' <> []).
  { intros r'. rewrite (take_S_r _ _ _ Hi), elem_of_app, list_elem_of_singleton.
    intros [?| ->]; [by apply Hprev|].
    pose proof (dropClosingPoint_length_le (points ring_)).
    destruct (points ring_); simpl in *; [lia | done]. }
  destruct (Nat.ltb_spec 0 i) as [Hpos|Hzero]; [|by apply IH].
  destruct (ShamosHoey.dropClosingPoint (points ring_)) as [|firstPoint ?] eqn:Hcopy;
    [simpl in Hlen; lia|].
  destruct (rings !! 0) as [ring0|] eqn:H0; cycle 1.
  { apply lookup_ge_None in H0. apply lookup_lt_Some in Hi. lia. }
  simpl.
  destruct (pointInPolygonRing firstPoint ring0); simpl; [|eauto].
  destruct (holesApart_total firstPoint (firstPoint :: l)
              (take (i - 1) (drop 1 rings))) as [apart ->].
  { intros hole Hhole. apply Hprev.
    rewrite take_drop_commute in Hhole.
    replace (1 + (i - 1)) with i in Hhole by lia.
    by apply (subseteq_drop 1). }
  simpl. destruct apart; [by apply IH | eauto].
Qed.

(** The check, split into the ring loop and the sweep: the loop does not
    throw, and when it passes every ring the sweep runs on the ring copies. *)
Lemma simplePolygonLineStrings_cases
    (EventQueue : list LineString -> list Event) rings :
  (ShamosHoey.simplePolygonLineStrings EventQueue rings = Ok false
   /\ ~ (rings <> [] /\ forall k r, rings !! k = Some r -> accepted rings k r))
  \/ (rings <> []
      /\ (forall k r, rings !! k = Some r -> accepted rings k r)
      /\ ShamosHoey.simplePolygonLineStrings EventQueue rings
         = sweepResult (map ringCopy rings) (EventQueue (map ringCopy rings))).
Proof.
  unfold ShamosHoey.simplePolygonLineStrings.
  destruct (checkRings_total rings rings 0 []) as (passed & ringCopies & Hloop).
  { done. }
  { intros r. rewrite take_0. by intros ?%elem_of_nil. }
  rewrite Hloop. simpl.
  destruct rings as [|ring0 rings'].
  { left. split; [done|]. by intros [? _]. }
  simpl negb. destruct passed; simpl andb; cbv iota.
  - right. split; [done|].
    pose proof (checkRings_true _ _ _ _ _ Hloop) as Hall. simpl in Hall.
    split; [exact Hall|].
    rewrite (checkRings_accepts (ring0 :: rings') (ring0 :: rings') 0 []
               eq_refl Hall) in Hloop.
    injection Hloop as <-. reflexivity.
  - left. split; [done|]. intros [_ Hall].
    rewrite (checkRings_accepts (ring0 :: rings') (ring0 :: rings') 0 []
               eq_refl Hall) in Hloop. discriminate.
Qed.

End ring_loop.

(** ** The check and its preconditions *)

(** X13: the check returns [true] only for a non-empty ring list in which
    every ring has three points or more after closing-point removal and every
    hole has its first point inside ring 0 and clear of every earlier hole,
    each earlier hole having its first point outside this hole's copy. *)
Theorem simple_rings_accepted `{GeometryUtils}
    (EventQueue : list LineString -> list Event) (rings : list LineString) :
  ShamosHoey.simplePolygonLineStrings EventQueue rings = Ok true ->
  rings <> [] /\ forall k r, rings !! k = Some r -> accepted rings k r.
Proof.
  intros Htrue.
  destruct (simplePolygonLineStrings_cases EventQueue rings)
    as [[Hfalse _] | (Hne & Hall & _)]; [congruence | done].
Qed.

Lemma simple_rings_accepted_witness :
  let rings := map createFromPoints squareWithHole in
  rings <> []
  /\ forall k r, rings !! k = Some r
                 -> accepted (H := constGeometryUtils true false) rings k r.
Proof.
  apply (simple_rings_accepted (H := constGeometryUtils true false)
           stableEventQueue).
  vm_compute. reflexivity.
Defined.

(** X14: if the first point of a hole lies inside an earlier hole, or the
    first point of an earlier hole lies inside the hole's copy (both decided
    by the point-in-ring primitive), the check returns [false]. *)
Theorem hole_in_hole_not_simple `{GeometryUtils}
    (EventQueue : list LineString -> list Event) (rings : list LineString)
    (i j : nat) (hole earlier : LineString) (firstPoint : Point) :
  0 < j < i ->
  rings !! i = Some hole ->
  rings !! j = Some earlier ->
  points (ringCopy hole) !! 0 = Some firstPoint ->
  pointInPolygonRingPoints firstPoint (points earlier) = true
  \/ (exists earlier0, points earlier !! 0 = Some earlier0
                       /\ pointInPolygonRingPoints earlier0 (points (ringCopy hole))
                          = true) ->
  ShamosHoey.simplePolygonLineStrings EventQueue rings = Ok false.
Proof.
  intros Hij Hi Hj Hfirst Hcollide.
  destruct (simplePolygonLineStrings_cases EventQueue rings)
    as [[Hfalse _] | (_ & Hall & _)]; [done|].
  exfalso.
  destruct (Hall i hole Hi) as [_ Hhole].
  destruct Hhole as (firstPoint' & ring0 & Hfirst' & _ & _ & Hapart); [lia|].
  assert (firstPoint' = firstPoint) as -> by congruence.
  destruct (Hapart earlier) as (Hout & earlier0 & Hearlier0 & Hout0).
  { apply list_elem_of_lookup. exists (j - 1).
    rewrite lookup_take_lt by lia. rewrite lookup_drop.
    by replace (1 + (j - 1)) with j by lia. }
  destruct Hcollide as [Hin | (earlier0' & Hearlier0' & Hin)]; congruence.
Qed.

(** The square with two holes, and a primitive that finds every point
    inside every hole. *)
Lemma hole_in_hole_not_simple_witness :
  ShamosHoey.simplePolygonRingPoints (GU := constGeometryUtils true true)
    stableEventQueue squareWithTwoHoles = Ok false.
Proof.
  apply (hole_in_hole_not_simple (H := constGeometryUtils true true)
           stableEventQueue (map createFromPoints squareWithTwoHoles) 2 1
           (createFromPoints [mkPoint 3 3; mkPoint 3 4; mkPoint 4 4])
           (createFromPoints [mkPoint 2 2; mkPoint 2 8; mkPoint 8 8; mkPoint 8 2])
           (mkPoint 3 3)).
  - lia.
  - reflexivity.
  - reflexivity.
  - vm_compute. reflexivity.
  - left. reflexivity.
Defined.

(** The square with a hole is a ring list of accepted rings. *)
Lemma squareWithHole_accepted :
  let rings := map createFromPoints squareWithHole in
  rings <> []
  /\ forall k r, rings !! k = Some r
                 -> accepted (H := constGeometryUtils true false) rings k r.
Proof.
  intros rings.
  destruct (simplePolygonLineStrings_cases
              (H := constGeometryUtils true false) stableEventQueue rings)
    as [[Hfalse _] | (Hne & Hall & _)]; [|done].
  exfalso. vm_compute in Hfalse. discriminate.
Qed.

(** X15: for a non-empty ring list in which every ring is accepted, the
    check is the sweep of the event queue of the ring copies, which are the
    rings in their order, each without its closing point; the input rings
    take no other part in the result. *)
Theorem check_is_sweep_of_copies `{GeometryUtils}
    (EventQueue : list LineString -> list Event) (rings : list LineString) :
  rings <> [] ->
  (forall k r, rings !! k = Some r -> accepted rings k r) ->
  ShamosHoey.simplePolygonLineStrings EventQueue rings
  = sweepResult (map ringCopy rings) (EventQueue (map ringCopy rings)).
Proof.
  intros Hne Hall.
  destruct (simplePolygonLineStrings_cases EventQueue rings)
    as [[_ Hnot] | (_ & _ & Hsweep)]; [|done].
  exfalso. by apply Hnot.
Qed.

Lemma check_is_sweep_of_copies_witness :
  let rings := map createFromPoints squareWithHole in
  ShamosHoey.simplePolygonLineStrings (GU := constGeometryUtils true false)
    stableEventQueue rings
  = sweepResult (map ringCopy rings) (stableEventQueue (map ringCopy rings)).
Proof.
  intros rings.
  destruct squareWithHole_accepted as [Hne Hall].
  apply (check_is_sweep_of_copies (H := constGeometryUtils true false)
           stableEventQueue rings Hne Hall).
Defined.

(** X16: the ring loop never throws: when the check throws, every ring was
    accepted and it is the sweep of the ring copies that threw. *)
Theorem check_throws_from_sweep `{GeometryUtils}
    (EventQueue : list LineString -> list Event) (rings : list LineString)
    (e : exn) :
  ShamosHoey.simplePolygonLineStrings EventQueue rings = Throw e ->
  (forall k r, rings !! k = Some r -> accepted rings k r)
  /\ ShamosHoey.sweep (EventQueue (map ringCopy rings))
       (SweepLine.new (map ringCopy rings)) = Throw e.
Proof.
  intros Hthrow.
  destruct (simplePolygonLineStrings_cases EventQueue rings)
    as [[Hfalse _] | (_ & Hall & Hsweep)]; [congruence|].
  split; [done|]. rewrite Hsweep in Hthrow. unfold sweepResult in Hthrow.
  destruct (ShamosHoey.sweep _ _) as [r|e']; [discriminate|].
  simpl in Hthrow. congruence.
Qed.

(** The square under an event queue that yields a Right event first. *)
Lemma check_throws_from_sweep_witness :
  let rings := [createFromPoints square] in
  ShamosHoey.sweep (rightFirstEventQueue (map ringCopy rings))
    (SweepLine.new (map ringCopy rings))
  = Throw (SFException "Segment not found").
Proof.
  intros rings.
  apply (check_throws_from_sweep (H := constGeometryUtils true false)
           rightFirstEventQueue rings).
  vm_compute. reflexivity.
Defined.

(** ** Closing-point removal *)

(** X17: closing-point removal returns the points as they are or without
    their last point; it drops the last point only from three points or more
    and only when that point equals the first on x and y, so at least two
    points and the first point remain. *)
Theorem dropClosingPoint_shape (ps : list Point) :
  ShamosHoey.dropClosingPoint ps = ps
  \/ exists first final,
       ps = ShamosHoey.dropClosingPoint ps ++ [final]
       /\ head (ShamosHoey.dropClosingPoint ps) = Some first
       /\ point_equal first final = true
       /\ 2 <= length (ShamosHoey.dropClosingPoint ps).
Proof.
  unfold ShamosHoey.dropClosingPoint.
  destruct (Nat.leb_spec 3 (length ps)) as [Hlen|]; [|by left].
  destruct (head ps) as [first|] eqn:Hhead; [|by left].
  destruct (last ps) as [final|] eqn:Hlast; [|by left].
  destruct (point_equal first final) eqn:Heq; [|by left].
  right. exists first, final.
  assert (Hne : ps <> []) by (by intros ->).
  pose proof (app_removelast_last (l := ps) first Hne) as Hsplit.
  assert (Hfinal : List.last ps first = final).
  { clear -Hlast. induction ps as [|p [|q ps'] IH]; [done| |].
    - by injection Hlast as ->.
    - apply IH. exact Hlast. }
  rewrite Hfinal in Hsplit. split; [exact Hsplit|].
  split; [|split; [done | rewrite length_removelast; lia]].
  destruct ps as [|p [|q ps']]; simpl in *; try lia. exact Hhead.
Qed.

(** ** The z and m flags of geometries *)

Lemma updateZM_flags {GeometryType : Type}
    (this geometry : @Geometry.t GeometryType) :
  Geometry.geometryType (Geometry.updateZM this geometry)
  = Geometry.geometryType this
  /\ Geometry.hasZ (Geometry.updateZM this geometry)
     = Geometry.hasZ this || Geometry.hasZ geometry
  /\ Geometry.hasM (Geometry.updateZM this geometry)
     = Geometry.hasM this || Geometry.hasM geometry.
Proof.
  unfold Geometry.updateZM.
  destruct this as [type [] []], geometry as [type' [] []]; done.
Qed.

(** X18: updating a geometry with the geometries of a list, one after the
    other, keeps its type and leaves it with z exactly when it had z or the
    static [hasZ] of the list is true, and likewise for m. *)
Theorem updateZM_fold {GeometryType : Type}
    (this : @Geometry.t GeometryType) (geometries : list Geometry.t) :
  let this' := foldl Geometry.updateZM this geometries in
  Geometry.geometryType this' = Geometry.geometryType this
  /\ Geometry.hasZ this'
     = Geometry.hasZ this || Geometry.static_hasZ geometries
  /\ Geometry.hasM this'
     = Geometry.hasM this || Geometry.static_hasM geometries.
Proof.
  revert this. induction geometries as [|geometry rest IH]; intros this; simpl.
  - by rewrite !orb_false_r.
  - destruct (IH (Geometry.updateZM this geometry)) as (Ht & Hz & Hm).
    destruct (updateZM_flags this geometry) as (Ht' & Hz' & Hm').
    cbv zeta in *. rewrite Ht, Hz, Hm, Ht', Hz', Hm'.
    repeat apply conj; [done| |].
    + destruct (Geometry.hasZ this), (Geometry.hasZ geometry); done.
    + destruct (Geometry.hasM this), (Geometry.hasM geometry); done.
Qed.

(** ** The finite filter *)

(** X19: a value passes the filter of type [Finite] exactly when it passes
    both other types, and every value passes one of the other two; the
    z and m switches play no part. *)
Theorem filterValue_modes (filterZ filterM filterZ' filterM' : bool)
    (value : number) :
  let passes type z m :=
    PointFiniteFilter.filterValue (PointFiniteFilter.mk type z m) value in
  passes PointFiniteFilter.Finite filterZ filterM
  = passes PointFiniteFilter.FiniteAndInfinite filterZ' filterM'
    && passes PointFiniteFilter.FiniteAndNan filterZ' filterM'
  /\ passes PointFiniteFilter.FiniteAndInfinite filterZ filterM
     || passes PointFiniteFilter.FiniteAndNan filterZ' filterM' = true.
Proof.
  unfold PointFiniteFilter.filterValue, PrimFloat.is_finite. simpl.
  destruct (PrimFloat.is_nan value), (PrimFloat.is_infinity value); done.
Qed.

(** X20: a point whose z is undefined never passes: the filter rejects it on
    x or y, or else throws, whether or not z filtering is on. *)
Theorem filterPoint_missing_z (this : PointFiniteFilter.t) (point : PointZM) :
  point_z point = None ->
  PointFiniteFilter.filter this (Some point)
  = if PointFiniteFilter.filterValue this (point_x (xy point))
       && PointFiniteFilter.filterValue this (point_y (xy point))
    then Throw (SFException "Point does not have z value")
    else Ok false.
Proof.
  intros Hz. unfold PointFiniteFilter.filter, PointFiniteFilter.filterPoint,
    PointFiniteFilter.filterZ. rewrite Hz.
  by destruct (PointFiniteFilter.filterValue this (point_x (xy point))),
       (PointFiniteFilter.filterValue this (point_y (xy point))).
Qed.

Lemma filterPoint_missing_z_witness :
  PointFiniteFilter.filter
    (PointFiniteFilter.mk PointFiniteFilter.Finite false false)
    (Some (point2D 1 2))
  = Throw (SFException "Point does not have z value").
Proof.
  apply (filterPoint_missing_z
           (PointFiniteFilter.mk PointFiniteFilter.Finite false false)
           (point2D 1 2)).
  reflexivity.
Defined.

(** X21: the points that pass are those whose x and y pass the value filter,
    whose z and m are both defined, whose z passes when z filtering is on and
    the point has z, and whose m passes when m filtering is on and the point
    has m. *)
Theorem filterPoint_passes (this : PointFiniteFilter.t) (point : PointZM) :
  PointFiniteFilter.filterPoint this point = Ok true
  <-> PointFiniteFilter.filterValue this (point_x (xy point)) = true
      /\ PointFiniteFilter.filterValue this (point_y (xy point)) = true
      /\ (exists z, point_z point = Some z
                    /\ (PointFiniteFilter._filterZ this = true
                        -> point_hasZ point = true
                        -> PointFiniteFilter.filterValue this z = true))
      /\ (exists m, point_m point = Some m
                    /\ (PointFiniteFilter._filterM this = true
                        -> point_hasM point = true
                        -> PointFiniteFilter.filterValue this m = true)).
Proof.
  unfold PointFiniteFilter.filterPoint, PointFiniteFilter.filterZ,
    PointFiniteFilter.filterM.
  destruct (PointFiniteFilter.filterValue this (point_x (xy point)));
    [|split; [done | by intros [? _]]].
  destruct (PointFiniteFilter.filterValue this (point_y (xy point)));
    [|split; [done | by intros (_ & ? & _)]].
  destruct (point_z point) as [z|];
    [|split; [done | by intros (_ & _ & (? & ? & _) & _)]].
  destruct (point_m point) as [m|]; simpl.
  - destruct (PointFiniteFilter._filterZ this), (point_hasZ point),
      (PointFiniteFilter._filterM this), (point_hasM point); simpl;
      destruct (PointFiniteFilter.filterValue this z) eqn:Ez;
      destruct (PointFiniteFilter.filterValue this m) eqn:Em; simpl;
      (split;
       [ try discriminate; intros _; repeat apply conj; try done;
         eexists; (split; [reflexivity | intros; congruence ])
       | intros (_ & _ & (z' & Hz' & Hz) & (m' & Hm' & Hm));
         injection Hz' as <-; injection Hm' as <-;
         try (specialize (Hz eq_refl eq_refl)); try (specialize (Hm eq_refl eq_refl));
         congruence ]).
  - split.
    + destruct (negb _ || _); discriminate.
    + by intros (_ & _ & _ & (? & ? & _)).
Qed.

(** ** Closed curves *)

Section closed_curves.
Context {Curve PointT : Type}.
Variable isEmpty : Curve -> bool.
Variable startPoint endPoint : Curve -> result PointT.
Variable point_equals : PointT -> PointT -> bool.

Local Abbreviation curve_isClosed :=
  (MultiCurve.curve_isClosed isEmpty startPoint endPoint point_equals).
Local Abbreviation isClosed :=
  (MultiCurve.isClosed isEmpty startPoint endPoint point_equals).

Lemma isClosed_cons curve rest :
  isClosed (curve :: rest)
  = match curve_isClosed curve with
    | Ok true => isClosed rest
    | Ok false => Ok false
    | Throw e => Throw e
    end.
Proof.
  simpl. by destruct (curve_isClosed curve) as [[]|].
Qed.

Lemma isClosed_Forall geometries :
  isClosed geometries = Ok true
  <-> Forall (fun curve => curve_isClosed curve = Ok true) geometries.
Proof.
  induction geometries as [|curve rest IH]; [done|].
  rewrite isClosed_cons, Forall_cons.
  destruct (curve_isClosed curve) as [[]|]; [|split; [done | by intros [? _]]..].
  rewrite IH. tauto.
Qed.

Lemma isClosed_prefix before rest :
  Forall (fun curve => curve_isClosed curve = Ok true) before ->
  isClosed (before ++ rest) = isClosed rest.
Proof.
  induction 1 as [|curve before Hc _ IH]; [done|].
  change ((curve :: before) ++ rest) with (curve :: (before ++ rest)).
  by rewrite isClosed_cons, Hc.
Qed.

End closed_curves.

(** X22: a multi-curve is reported closed exactly when [Curve.isClosed]
    returns true for every one of its curves; each of them is then non-empty
    and has start and end points that are equal. *)
Theorem isClosed_all {Curve PointT : Type} (isEmpty : Curve -> bool)
    (startPoint endPoint : Curve -> result PointT)
    (point_equals : PointT -> PointT -> bool) (geometries : list Curve) :
  MultiCurve.isClosed isEmpty startPoint endPoint point_equals geometries
  = Ok true
  <-> forall curve, curve ∈ geometries ->
        isEmpty curve = false
        /\ exists start finish,
             startPoint curve = Ok start /\ endPoint curve = Ok finish
             /\ point_equals start finish = true.
Proof.
  rewrite isClosed_Forall, Forall_forall.
  apply forall_proper; intros curve. apply forall_proper; intros _.
  unfold MultiCurve.curve_isClosed.
  destruct (isEmpty curve); simpl; [split; [done | by intros [? _]]|].
  destruct (startPoint curve) as [start|]; simpl;
    [|split; [done | by intros (_ & ? & ? & ? & _)]].
  destruct (endPoint curve) as [finish|]; simpl;
    [|split; [done | by intros (_ & ? & ? & _ & ? & _)]].
  split.
  - intros [= Heq]. split; [done|]. by exists start, finish.
  - intros (_ & ? & ? & [= <-] & [= <-] & ->). done.
Qed.

(** X23: an empty curve is not closed, and its end points are not asked for;
    a multi-curve with a curve that is not closed after closed curves only is
    not closed, whatever curves follow, even ones whose end points throw. *)
Theorem isClosed_stops_at_open_curve {Curve PointT : Type}
    (isEmpty : Curve -> bool) (startPoint endPoint : Curve -> result PointT)
    (point_equals : PointT -> PointT -> bool)
    (before after : list Curve) (curve : Curve) :
  Forall (fun c => MultiCurve.curve_isClosed isEmpty startPoint endPoint
                     point_equals c = Ok true) before ->
  isEmpty curve = true
  \/ MultiCurve.curve_isClosed isEmpty startPoint endPoint point_equals curve
     = Ok false ->
  MultiCurve.isClosed isEmpty startPoint endPoint point_equals
    (before ++ curve :: after) = Ok false.
Proof.
  intros Hbefore Hopen.
  rewrite isClosed_prefix by done. rewrite isClosed_cons.
  assert (MultiCurve.curve_isClosed isEmpty startPoint endPoint point_equals
            curve = Ok false) as ->; [|done].
  destruct Hopen as [Hempty|]; [|done].
  unfold MultiCurve.curve_isClosed. by rewrite Hempty.
Qed.

(** A closed triangle, an empty line, and a one-point line whose start point
    throws. *)
Lemma isClosed_stops_at_open_curve_witness :
  MultiCurve.isClosed lineIsEmpty brokenStartPoint lineEndPoint point_equal
    ([closedTriangle] ++ [] :: [[mkPoint 0 0]]) = Ok false
  /\ MultiCurve.isClosed lineIsEmpty brokenStartPoint lineEndPoint point_equal
       [[mkPoint 0 0]] = Throw (SFException "no start point").
Proof.
  split; [|reflexivity].
  apply (isClosed_stops_at_open_curve lineIsEmpty brokenStartPoint
           lineEndPoint point_equal [closedTriangle] [[mkPoint 0 0]] []).
  - repeat constructor.
  - left. reflexivity.
Defined.

(** ** Envelopes *)

Import GeometryEnvelopeBuilder.

Lemma within_lower_upper lo hi v x :
  within lo hi v = true ->
  within (lower lo x) (upper hi x) v = true.
Proof.
  unfold within, lower, upper.
  destruct lo as [l|], hi as [h|]; try done.
  intros [Hl Hh]%andb_true_iff. apply negb_true_iff in Hl, Hh.
  destruct (PrimFloat.ltb x l) eqn:Hxl, (PrimFloat.ltb h x) eqn:Hhx;
    apply andb_true_iff; split; apply negb_true_iff; try done.
  - destruct (PrimFloat.ltb v x) eqn:Hv; [|done].
    by rewrite (ltb_trans v x l Hv Hxl) in Hl.
  - destruct (PrimFloat.ltb x v) eqn:Hv; [|done].
    by rewrite (ltb_trans h x v Hhx Hv) in Hh.
  - destruct (PrimFloat.ltb v x) eqn:Hv; [|done].
    by rewrite (ltb_trans v x l Hv Hxl) in Hl.
  - destruct (PrimFloat.ltb x v) eqn:Hv; [|done].
    by rewrite (ltb_trans h x v Hhx Hv) in Hh.
Qed.

Lemma within_self lo hi v : within (lower lo v) (upper hi v) v = true.
Proof.
  unfold within, lower, upper.
  destruct lo as [l|], hi as [h|];
    try destruct (PrimFloat.ltb v l) eqn:Hl;
    try destruct (PrimFloat.ltb h v) eqn:Hh;
    rewrite ?ltb_irrefl, ?Hl, ?Hh; done.
Qed.

Lemma lower_Some b x :
  Some (if PrimFloat.ltb x b then x else b) = lower (Some b) x.
Proof. unfold lower. by destruct (PrimFloat.ltb x b). Qed.

Lemma upper_Some b x :
  Some (if PrimFloat.ltb b x then x else b) = upper (Some b) x.
Proof. unfold upper. by destruct (PrimFloat.ltb b x). Qed.

Lemma widens_refl e : widens e e.
Proof. intros v. tauto. Qed.

Lemma widens_trans e1 e2 e3 : widens e1 e2 -> widens e2 e3 -> widens e1 e3.
Proof.
  intros H12 H23 v. destruct (H12 v) as (?&?&?&?), (H23 v) as (?&?&?&?).
  repeat apply conj; auto.
Qed.

Lemma widens_updateHasZandM e hasZ hasM :
  widens e (updateHasZandM e hasZ hasM).
Proof. intros v. simpl. tauto. Qed.

Lemma addPoint_ranges e point :
  let e' := addPoint e point in
  let x := point_x (xy point) in
  let y := point_y (xy point) in
  let bound (coordinate : option number)
        (widen : option number -> number -> option number)
        (old : option number) :=
    match coordinate with Some v => widen old v | None => old end in
  let z := if point_hasZ point then point_z point else None in
  let m := if point_hasM point then point_m point else None in
  Some (minX e') = lower (Some (minX e)) x
  /\ Some (maxX e') = upper (Some (maxX e)) x
  /\ Some (minY e') = lower (Some (minY e)) y
  /\ Some (maxY e') = upper (Some (maxY e)) y
  /\ minZ e' = bound z lower (minZ e)
  /\ maxZ e' = bound z upper (maxZ e)
  /\ minM e' = bound m lower (minM e)
  /\ maxM e' = bound m upper (maxM e).
Proof.
  cbv zeta. unfold addPoint, lower, upper. simpl.
  repeat apply conj;
    try (by match goal with |- context [PrimFloat.ltb ?a ?b] =>
              destruct (PrimFloat.ltb a b) end);
    try (by destruct (point_hasZ point), (point_z point));
    by destruct (point_hasM point), (point_m point).
Qed.

Lemma widens_addPoint e point : widens e (addPoint e point).
Proof.
  intros v.
  destruct (addPoint_ranges e point)
    as (-> & -> & -> & -> & -> & -> & -> & ->).
  repeat apply conj; try apply within_lower_upper.
  - destruct (point_hasZ point), (point_z point); try done.
    apply within_lower_upper.
  - destruct (point_hasM point), (point_m point); try done.
    apply within_lower_upper.
Qed.

Lemma encloses_addPoint e point : encloses (addPoint e point) point = true.
Proof.
  unfold encloses.
  destruct (addPoint_ranges e point)
    as (-> & -> & -> & -> & -> & -> & -> & ->).
  rewrite !within_self. simpl.
  destruct (point_hasZ point), (point_z point), (point_hasM point),
    (point_m point); simpl; rewrite ?within_self; done.
Qed.

Lemma encloses_widens e e' point :
  widens e e' -> encloses e point = true -> encloses e' point = true.
Proof.
  intros Hw. unfold encloses.
  rewrite !andb_true_iff. intros [[[Hx Hy] Hz] Hm].
  repeat apply conj.
  - by apply (Hw (point_x (xy point))).
  - by apply (Hw (point_y (xy point))).
  - destruct (point_hasZ point), (point_z point) as [z|]; try done.
    by apply (Hw z).
  - destruct (point_hasM point), (point_m point) as [m|]; try done.
    by apply (Hw m).
Qed.

Lemma widens_foldl {A} (f : GeometryEnvelope -> A -> GeometryEnvelope) :
  (forall e a, widens e (f e a)) ->
  forall l e, widens e (foldl f e l).
Proof.
  intros Hf l. induction l as [|a l IH]; intros e; [apply widens_refl|].
  simpl. eapply widens_trans; [apply Hf | apply IH].
Qed.

Lemma widens_addLineString e lineString : widens e (addLineString e lineString).
Proof.
  unfold addLineString.
  eapply widens_trans; [apply widens_updateHasZandM|].
  apply widens_foldl, widens_addPoint.
Qed.

Lemma widens_addPolygon e polygon : widens e (addPolygon e polygon).
Proof.
  unfold addPolygon.
  eapply widens_trans; [apply widens_updateHasZandM|].
  apply widens_foldl, widens_addLineString.
Qed.

Lemma encloses_foldl_addPoint e ps point :
  point ∈ ps -> encloses (foldl addPoint e ps) point = true.
Proof.
  intros (before & after & ->)%list_elem_of_split.
  rewrite foldl_app. simpl.
  eapply encloses_widens; [apply widens_foldl, widens_addPoint|].
  apply encloses_addPoint.
Qed.

Lemma encloses_addLineString e lineString point :
  point ∈ line_points lineString ->
  encloses (addLineString e lineString) point = true.
Proof. apply encloses_foldl_addPoint. Qed.

(** X24: after a line string is added to an envelope, the envelope encloses
    every point of the line string: no x or y of a point is below the
    minimum or above the maximum, nor is the z or m of a point that has one. *)
Theorem addLineString_encloses (envelope : GeometryEnvelope)
    (lineString : LineStringZM) (point : PointZM) :
  point ∈ line_points lineString ->
  encloses (addLineString envelope lineString) point = true.
Proof. apply encloses_addLineString. Qed.

Lemma addLineString_encloses_witness :
  encloses
    (addLineString startEnvelope
       (mkLineStringZM true false
          [point3D 1 5 2; point3D (-3) 7 0; point2D 4 (-1)]))
    (point3D (-3) 7 0) = true.
Proof.
  apply (addLineString_encloses startEnvelope
           (mkLineStringZM true false
              [point3D 1 5 2; point3D (-3) 7 0; point2D 4 (-1)])
           (point3D (-3) 7 0)).
  apply list_elem_of_lookup. by exists 1.
Defined.

(** X25: after a polygon is added to an envelope, the envelope encloses
    every point of every ring of the polygon. *)
Theorem addPolygon_encloses (envelope : GeometryEnvelope)
    (polygon : PolygonZM) (ring_ : LineStringZM) (point : PointZM) :
  ring_ ∈ polygon_rings polygon ->
  point ∈ line_points ring_ ->
  encloses (addPolygon envelope polygon) point = true.
Proof.
  intros (before & after & Hrings)%list_elem_of_split Hpoint.
  unfold addPolygon. rewrite Hrings, foldl_app. simpl.
  eapply encloses_widens; [apply widens_foldl, widens_addLineString|].
  by apply encloses_addLineString.
Qed.

Lemma addPolygon_encloses_witness :
  encloses
    (addPolygon startEnvelope
       (mkPolygonZM false false
          [mkLineStringZM false false
             [point2D 0 0; point2D 10 0; point2D 10 10; point2D 0 10];
           mkLineStringZM false false
             [point2D 2 2; point2D 2 8; point2D 8 8; point2D 8 2]]))
    (point2D 10 10) = true.
Proof.
  apply (addPolygon_encloses startEnvelope
           (mkPolygonZM false false
              [mkLineStringZM false false
                 [point2D 0 0; point2D 10 0; point2D 10 10; point2D 0 10];
               mkLineStringZM false false
                 [point2D 2 2; point2D 2 8; point2D 8 8; point2D 8 2]])
           (mkLineStringZM false false
              [point2D 0 0; point2D 10 0; point2D 10 10; point2D 0 10])
           (point2D 10 10)).
  - apply list_elem_of_lookup. by exists 0.
  - apply list_elem_of_lookup. by exists 2.
Defined.

(** X26: adding a point, a line string or a polygon only widens an
    envelope: a point the envelope enclosed before is enclosed after. *)
Theorem envelope_only_widens (envelope : GeometryEnvelope) (point : PointZM)
    (lineString : LineStringZM) (polygon : PolygonZM) (q : PointZM) :
  encloses envelope q = true ->
  encloses (addPoint envelope point) q = true
  /\ encloses (addLineString envelope lineString) q = true
  /\ encloses (addPolygon envelope polygon) q = true.
Proof.
  intros Hq. repeat apply conj; (eapply encloses_widens; [|exact Hq]).
  - apply widens_addPoint.
  - apply widens_addLineString.
  - apply widens_addPolygon.
Qed.

Lemma envelope_only_widens_witness :
  let envelope := addPoint (addPoint startEnvelope (point2D 0 0)) (point2D 4 4) in
  let lineString := mkLineStringZM false false [point2D 9 1; point2D (-2) 3] in
  encloses (addPoint envelope (point2D 9 1)) (point2D 2 3) = true
  /\ encloses (addLineString envelope lineString) (point2D 2 3) = true
  /\ encloses (addPolygon envelope (mkPolygonZM false false [lineString]))
       (point2D 2 3) = true.
Proof.
  intros envelope lineString.
  apply (envelope_only_widens envelope (point2D 9 1) lineString
           (mkPolygonZM false false [lineString]) (point2D 2 3)).
  vm_compute. reflexivity.
Defined.

(** The bounds of x and y after points are added. *)
Lemma foldl_addPoint_bounds ps : forall e,
  let e' := foldl addPoint e ps in
  let from (bound : GeometryEnvelope -> number) (coordinate : Point -> number) :=
    bound e' = bound e
    \/ exists point, point ∈ ps /\ bound e' = coordinate (xy point) in
  from minX point_x /\ from maxX point_x
  /\ from minY point_y /\ from maxY point_y.
Proof.
  induction ps as [|p ps IH]; intros e; cbv zeta; [by repeat apply conj; left|].
  simpl foldl. specialize (IH (addPoint e p)). cbv zeta in IH.
  destruct IH as (Hx & HX & Hy & HY).
  assert (Hstep : forall (bound : GeometryEnvelope -> number)
                         (coordinate : Point -> number),
             (bound (addPoint e p) = bound e
              \/ bound (addPoint e p) = coordinate (xy p)) ->
             (bound (foldl addPoint (addPoint e p) ps) = bound (addPoint e p)
              \/ exists point, point ∈ ps
                   /\ bound (foldl addPoint (addPoint e p) ps)
                      = coordinate (xy point)) ->
             bound (foldl addPoint (addPoint e p) ps) = bound e
             \/ exists point, point ∈ p :: ps
                  /\ bound (foldl addPoint (addPoint e p) ps)
                     = coordinate (xy point)).
  { intros bound coordinate Hp [Heq | (point & Hin & Heq)].
    - rewrite Heq. destruct Hp as [Hp|Hp]; [by left|].
      right. exists p. split; [apply list_elem_of_here | done].
    - right. exists point. split; [by apply list_elem_of_further | done]. }
  repeat apply conj; (apply Hstep; [|done]); unfold addPoint; simpl.
  - destruct (PrimFloat.ltb _ _); auto.
  - destruct (PrimFloat.ltb _ _); auto.
  - destruct (PrimFloat.ltb _ _); auto.
  - destruct (PrimFloat.ltb _ _); auto.
Qed.

(** X27: the envelope is tight: each bound of x and y after a line string is
    added is the bound before, or that coordinate of one of the points of the
    line string. *)
Theorem addLineString_tight (envelope : GeometryEnvelope)
    (lineString : LineStringZM) :
  let envelope' := addLineString envelope lineString in
  let from (bound : GeometryEnvelope -> number) (coordinate : Point -> number) :=
    bound envelope' = bound envelope
    \/ exists point, point ∈ line_points lineString
                     /\ bound envelope' = coordinate (xy point) in
  from minX point_x /\ from maxX point_x
  /\ from minY point_y /\ from maxY point_y.
Proof.
  exact (foldl_addPoint_bounds (line_points lineString)
           (updateHasZandM envelope (line_hasZ lineString)
              (line_hasM lineString))).
Qed.

(** X28: the envelope has z after a line string is added exactly when it
    had z before, or the line string has z, or one of its points has z; and
    likewise for m. *)
Theorem addLineString_flags (envelope : GeometryEnvelope)
    (lineString : LineStringZM) :
  hasZ (addLineString envelope lineString)
  = hasZ envelope || line_hasZ lineString
    || existsb point_hasZ (line_points lineString)
  /\ hasM (addLineString envelope lineString)
     = hasM envelope || line_hasM lineString
       || existsb point_hasM (line_points lineString).
Proof.
  unfold addLineString.
  assert (Hfold : forall ps e,
             hasZ (foldl addPoint e ps) = hasZ e || existsb point_hasZ ps
             /\ hasM (foldl addPoint e ps) = hasM e || existsb point_hasM ps).
  { induction ps as [|p ps IH]; intros e; simpl; [by rewrite !orb_false_r|].
    destruct (IH (addPoint e p)) as [-> ->]. unfold addPoint. simpl.
    by destruct (hasZ e), (hasM e), (point_hasZ p), (point_hasM p). }
  destruct (Hfold (line_points lineString)
              (updateHasZandM envelope (line_hasZ lineString)
                 (line_hasM lineString))) as [-> ->].
  simpl. by destruct (hasZ envelope), (hasM envelope), (line_hasZ lineString),
              (line_hasM lineString).
Qed.

(** ** Consecutive edges of one ring *)





(** ** The comparator's x in [add], in [remove] and in a sweep *)








